(** * The windowed difference viewer of [difference.py]

    A shallow embedding of the class [DifferencePlot]: its constructor
    [__init__], the render step [plot_window] and the key handler
    [on_key_release], together with the few numpy / matplotlib operations
    they call.

    Modelling choices.
    - Python integers are [Z]; Python's [%] is floor modulo with the sign of
      the divisor, which is exactly [Z.modulo]; a zero divisor raises
      [ZeroDivisionError].
    - numpy floating-point values are idealised as rationals [Q]; the
      library casts what it is given to float64, so a statement about stored
      values holds for given values that float64 can hold ([is_float64]).
    - A two-dimensional array is a record of its [shape] and its rows.
    - The object [self] is a record of attributes, each of them either
      [Unset] or [Set_ v]: reading an unset attribute raises [AttributeError].
    - Calls into matplotlib are recorded, in order, in a log of [event]s.
      What the libraries may refuse beyond their argument checks is not
      modelled: an allocation that is too large for numpy, a title that
      matplotlib cannot typeset.  A run of the model that raises is a run of
      the program that raises; that a construction succeeds is, where a
      statement needs it, a hypothesis of the statement.
    - Statements are sequenced in a state-and-exception monad [M] over the
      [world] (the object and the log).  An exception keeps the state reached
      so far, as in Python. *)

From Stdlib Require Import String Bool ZArith QArith Lia List.
Import ListNotations.

Local Open Scope Z_scope.

(** ** Exceptions and the monad *)

Inductive error : Type :=
| Exception (msg : string)
| AttributeError
| IndexError
| ValueError
| ZeroDivisionError.

(** The only exception the class raises itself (line 17). *)
Definition ShapeMismatch : error :=
  Exception "Dataset shapes must be identical".

Inductive attr (A : Type) : Type :=
| Unset
| Set_ (v : A).
Arguments Unset {A}.
Arguments Set_ {A} v.

(** ** numpy arrays *)

Record ndarray : Type := mk_ndarray {
  shape : nat * nat;
  rows : list (list Q)
}.

Definition wf_row (T : nat) (r : list Q) : bool := Nat.eqb (length r) T.

(** A well-formed array has [fst shape] rows of [snd shape] entries. *)
Definition wf (d : ndarray) : bool :=
  Nat.eqb (length (rows d)) (fst (shape d)) &&
  forallb (wf_row (snd (shape d))) (rows d).

Definition shape_eq_dec (s1 s2 : nat * nat) : {s1 = s2} + {s1 <> s2}.
Proof. decide equality; apply Nat.eq_dec. Defined.

Definition shape_eqb (s1 s2 : nat * nat) : bool :=
  if shape_eq_dec s1 s2 then true else false.

(** [np.zeros((r, c))]; a negative dimension raises [ValueError].  The
    size that numpy or the memory can hold is not bounded here. *)
Definition np_zeros (r : nat) (c : Z) : error + ndarray :=
  if c <? 0 then inl ValueError
  else inr (mk_ndarray (r, Z.to_nat c) (repeat (repeat 0%Q (Z.to_nat c)) r)).

Fixpoint zip_app (a b : list (list Q)) : list (list Q) :=
  match a, b with
  | ra :: a', rb :: b' => (ra ++ rb) :: zip_app a' b'
  | _, _ => []
  end.

(** [np.concatenate([a, b], axis=1)]; the row counts must agree. *)
Definition np_concatenate1 (a b : ndarray) : error + ndarray :=
  if Nat.eqb (fst (shape a)) (fst (shape b))
  then inr (mk_ndarray (fst (shape a), (snd (shape a) + snd (shape b))%nat)
                       (zip_app (rows a) (rows b)))
  else inl ValueError.

(** ** Python sequences *)

(** [range(n)] *)
Definition range (n : Z) : list Z := map Z.of_nat (seq 0 (Z.to_nat n)).

(** [range(a, b)] *)
Definition range2 (a b : Z) : list Z :=
  map (fun i => a + Z.of_nat i) (seq 0 (Z.to_nat (b - a))).

(** [l[i]], with Python's negative indices. *)
Definition py_index {A : Type} (l : list A) (i : Z) : error + A :=
  let n := Z.of_nat (length l) in
  let j := if i <? 0 then i + n else i in
  if (j <? 0) || (n <=? j) then inl IndexError
  else match nth_error l (Z.to_nat j) with
       | Some v => inr v
       | None => inl IndexError
       end.

(** [l[a:b]]: both bounds are shifted when negative, then clamped. *)
Definition py_clamp (n i : Z) : Z :=
  if i <? 0 then Z.max (i + n) 0 else Z.min i n.

Definition py_slice {A : Type} (l : list A) (a b : Z) : list A :=
  let n := Z.of_nat (length l) in
  let lo := py_clamp n a in
  let hi := py_clamp n b in
  firstn (Z.to_nat (hi - lo)) (skipn (Z.to_nat lo) l).

(** Python's [%] on integers. *)
Definition py_mod (a b : Z) : error + Z :=
  if b =? 0 then inl ZeroDivisionError else inr (a mod b).

(** ** numpy.interp

    The library function [np.interp(x, xp, fp)], after its documentation:
    one-dimensional piecewise linear interpolation through the points
    [(xp, fp)], [xp] increasing; left of [xp[0]] the value is [fp[0]], right
    of [xp[-1]] it is [fp[-1]]; a sample that is one of the points [xp[j]]
    gets [fp[j]] itself; an empty [xp] raises [ValueError], and so do [xp]
    and [fp] of different lengths.  The segment of a sample is found here by
    a scan from the left, which for increasing [xp] is the segment the
    library finds. *)

Fixpoint interp_from (v : Q) (x0 f0 : Q) (rest : list (Q * Q)) : Q :=
  match rest with
  | [] => f0
  | (x1, f1) :: rest' =>
      if Qlt_le_dec v x1
      then if Qeq_bool v x0 then f0
           else ((f1 - f0) / (x1 - x0) * (v - x0) + f0)%Q
      else interp_from v x1 f1 rest'
  end.

Definition interp_at (pts : list (Q * Q)) (v : Q) : Q :=
  match pts with
  | [] => 0%Q
  | (x0, f0) :: rest => if Qlt_le_dec v x0 then f0 else interp_from v x0 f0 rest
  end.

Definition np_interp (xs xp fp : list Q) : error + list Q :=
  if negb (Nat.eqb (length xp) (length fp)) then inl ValueError
  else match xp with
       | [] => inl ValueError
       | _ => inr (map (interp_at (combine xp fp)) xs)
       end.

(** ** The object and the world *)

Record DifferencePlot : Type := mk_self {
  window_width : attr Z;
  window_height : attr Z;
  ch_names : attr (option (list string));
  x : attr Z;
  y : attr Z;
  datasets : attr (list ndarray);
  x_range : attr (option (list Q));
  figure : attr unit;
  key_release_cid : attr unit
}.

(** The object as [__init__] receives it: no attribute yet. *)
Definition new_self : DifferencePlot :=
  mk_self Unset Unset Unset Unset Unset Unset Unset Unset Unset.

(** Calls into matplotlib, as they are made. *)
Inductive event : Type :=
| PltFigure
| FigureClear
| AddSubplot (nrows ncols index : Z)
| SetTitle (title : string)
| SetXlim (lo hi : Q)
| AxPlot (xs ys : list Q)
| PltDraw
| MplConnect (name : string)
| PltShow.

Record world : Type := mk_world {
  self : DifferencePlot;
  log : list event
}.

Definition M (A : Type) : Type := world -> (error + A) * world.

Definition ret {A : Type} (a : A) : M A := fun s => (inr a, s).

Definition raise {A : Type} (e : error) : M A := fun s => (inl e, s).

Definition bind {A B : Type} (m : M A) (k : A -> M B) : M B :=
  fun s => match m s with
           | (inr a, s') => k a s'
           | (inl e, s') => (inl e, s')
           end.

Notation "v <- m ;; k" := (bind m (fun v => k))
  (at level 61, m at next level, right associativity).
Notation "m ;; k" := (bind m (fun _ => k))
  (at level 61, right associativity).

(** Lifting of a pure, fallible computation. *)
Definition lift {A : Type} (r : error + A) : M A := fun s => (r, s).

(** [self.a] *)
Definition getattr {A : Type} (a : DifferencePlot -> attr A) : M A :=
  fun s => match a (self s) with
           | Set_ v => (inr v, s)
           | Unset => (inl AttributeError, s)
           end.

(** [self.a = v], given as the update of the record. *)
Definition setattr (upd : DifferencePlot -> DifferencePlot) : M unit :=
  fun s => (inr tt, mk_world (upd (self s)) (log s)).

(** A call into matplotlib: the call is recorded; what matplotlib does
    with it, and whether it accepts it, is outside the model. *)
Definition emit (e : event) : M unit :=
  fun s => (inr tt, mk_world (self s) (log s ++ [e])).

(** [for v in l: body] *)
Fixpoint for_ {A : Type} (l : list A) (body : A -> M unit) : M unit :=
  match l with
  | [] => ret tt
  | v :: l' => body v ;; for_ l' body
  end.

(** A loop that builds a list with [append]. *)
Fixpoint for_append {A B : Type} (l : list A) (body : A -> M B) : M (list B) :=
  match l with
  | [] => ret []
  | v :: l' => b <- body v ;; bs <- for_append l' body ;; ret (b :: bs)
  end.

Definition set_window_width v (o : DifferencePlot) : DifferencePlot :=
  mk_self (Set_ v) (window_height o) (ch_names o) (x o) (y o) (datasets o)
          (x_range o) (figure o) (key_release_cid o).
Definition set_window_height v (o : DifferencePlot) : DifferencePlot :=
  mk_self (window_width o) (Set_ v) (ch_names o) (x o) (y o) (datasets o)
          (x_range o) (figure o) (key_release_cid o).
Definition set_ch_names v (o : DifferencePlot) : DifferencePlot :=
  mk_self (window_width o) (window_height o) (Set_ v) (x o) (y o) (datasets o)
          (x_range o) (figure o) (key_release_cid o).
Definition set_x v (o : DifferencePlot) : DifferencePlot :=
  mk_self (window_width o) (window_height o) (ch_names o) (Set_ v) (y o)
          (datasets o) (x_range o) (figure o) (key_release_cid o).
Definition set_y v (o : DifferencePlot) : DifferencePlot :=
  mk_self (window_width o) (window_height o) (ch_names o) (x o) (Set_ v)
          (datasets o) (x_range o) (figure o) (key_release_cid o).
Definition set_datasets v (o : DifferencePlot) : DifferencePlot :=
  mk_self (window_width o) (window_height o) (ch_names o) (x o) (y o) (Set_ v)
          (x_range o) (figure o) (key_release_cid o).
Definition set_x_range v (o : DifferencePlot) : DifferencePlot :=
  mk_self (window_width o) (window_height o) (ch_names o) (x o) (y o)
          (datasets o) (Set_ v) (figure o) (key_release_cid o).
Definition set_figure v (o : DifferencePlot) : DifferencePlot :=
  mk_self (window_width o) (window_height o) (ch_names o) (x o) (y o)
          (datasets o) (x_range o) (Set_ v) (key_release_cid o).
Definition set_key_release_cid v (o : DifferencePlot) : DifferencePlot :=
  mk_self (window_width o) (window_height o) (ch_names o) (x o) (y o)
          (datasets o) (x_range o) (figure o) (Set_ v).

(** ** The class [DifferencePlot] *)

(** The number of distinct shapes, [len(set([d.shape for d in datasets]))]. *)
Definition distinct_shapes (ds : list ndarray) : nat :=
  length (nodup shape_eq_dec (map shape ds)).

(** The body of the padding loop (lines 28-30). *)
Definition pad (width : Z) (dataset : ndarray) : error + ndarray :=
  match py_mod (Z.of_nat (snd (shape dataset))) width with
  | inl e => inl e
  | inr residue =>
      match np_zeros (fst (shape dataset)) (width - residue) with
      | inl e => inl e
      | inr zero_matrix => np_concatenate1 dataset zero_matrix
      end
  end.

Definition Q_of_range (l : list Z) : list Q := map inject_Z l.

(** [self.datasets[0].shape] *)
Definition datasets0_shape : M (nat * nat) :=
  ds <- getattr datasets ;;
  d <- lift (py_index ds 0) ;;
  ret (shape d).

(** The truth value of [self.ch_names]. *)
Definition truthy (names : option (list string)) : bool :=
  match names with
  | Some (_ :: _) => true
  | _ => false
  end.

Definition names_list (names : option (list string)) : list string :=
  match names with
  | Some l => l
  | None => []
  end.

(** [(self.x * width) % self.datasets[0].shape[1]] *)
Definition window_left (width : Z) : M Z :=
  xv <- getattr x ;;
  sh <- datasets0_shape ;;
  lift (py_mod (xv * width) (Z.of_nat (snd sh))).

(** The body of the loop of [plot_window] (lines 49-69). *)
Definition plot_channel (channel : Z) : M unit :=
  yv <- getattr y ;;
  sh <- datasets0_shape ;;
  real_channel <- lift (py_mod (yv + channel) (Z.of_nat (fst sh))) ;;
  width <- getattr window_width ;;
  left <- window_left width ;;
  h <- getattr window_height ;;
  emit (AddSubplot h 1 (channel + 1)) ;;
  names <- getattr ch_names ;;
  (if truthy names
   then title <- lift (py_index (names_list names) real_channel) ;;
        emit (SetTitle title)
   else ret tt) ;;
  xr <- getattr x_range ;;
  lx <- match xr with
        | Some coords =>
            left <- window_left width ;;
            left <- window_left width ;;
            lo <- lift (py_index coords left) ;;
            hi <- lift (py_index coords (left + width - 1)) ;;
            emit (SetXlim lo hi) ;;
            ret (left, py_slice coords left (left + width))
        | None =>
            emit (SetXlim (inject_Z left) (inject_Z (left + width))) ;;
            ret (left, Q_of_range (range2 left (left + width)))
        end ;;
  let (left, xs) := lx : Z * list Q in
  ds <- getattr datasets ;;
  for_ ds (fun dataset =>
    data <- lift (py_index (rows dataset) real_channel) ;;
    let ys := py_slice data left (left + width) in
    if Nat.eqb (length xs) (length ys)
    then emit (AxPlot xs ys)
    else raise ValueError).

Definition plot_window : M unit :=
  getattr figure ;;
  emit FigureClear ;;
  h <- getattr window_height ;;
  for_ (range h) plot_channel ;;
  emit PltDraw.

Definition __init__ (datasets' : list ndarray)
    (ch_names' : option (list string)) (x' y' : Z)
    (x_range' : option (list Q)) (window_width' window_height' : Z) : M unit :=
  (if Nat.eqb (distinct_shapes datasets') 1 then ret tt
   else raise ShapeMismatch) ;;
  setattr (set_window_width window_width') ;;
  setattr (set_window_height window_height') ;;
  setattr (set_ch_names ch_names') ;;
  setattr (set_x x') ;;
  setattr (set_y y') ;;
  padded_datasets <- for_append datasets'
                       (fun dataset => lift (pad window_width' dataset)) ;;
  setattr (set_datasets padded_datasets) ;;
  match x_range' with
  | Some coords =>
      sh <- datasets0_shape ;;
      interpolated <-
        lift (np_interp (Q_of_range (range (Z.of_nat (snd sh))))
                        (Q_of_range (range (Z.of_nat (length coords))))
                        coords) ;;
      setattr (set_x_range (Some interpolated))
  | None => setattr (set_x_range None)
  end ;;
  emit PltFigure ;;
  setattr (set_figure tt) ;;
  plot_window ;;
  emit (MplConnect "key_release_event") ;;
  setattr (set_key_release_cid tt) ;;
  emit PltShow.

(** The handler takes [event.key]. *)
Definition on_key_release (key : string) : M unit :=
  (if (key =? "left")%string then
     xv <- getattr x ;; setattr (set_x (xv - 1))
   else if (key =? "right")%string then
     xv <- getattr x ;; setattr (set_x (xv + 1))
   else if (key =? "up")%string then
     yv <- getattr y ;; setattr (set_y (yv - 1))
   else if (key =? "down")%string then
     yv <- getattr y ;; setattr (set_y (yv + 1))
   else ret tt) ;;
  plot_window.

(** The world before the constructor runs. *)
Definition fresh : world := mk_world new_self [].

(** A sequence of key releases, as the event loop started by [plt.show()]
    delivers them to the handler connected on line 42: an exception of the
    handler ends that call, not the loop. *)
Definition key_releases (keys : list string) (s : world) : world :=
  fold_left (fun s' key => snd (on_key_release key s')) keys s.

(** The padded sample count [self.datasets[0].shape[1]]. *)
Definition T_padded (s : world) : Z :=
  match datasets (self s) with
  | Set_ (d :: _) => Z.of_nat (snd (shape d))
  | _ => 0
  end.

(** * Vocabulary of the statements *)

(** A computation that leaves the object alone and only extends the log. *)
Definition frame {A} (m : M A) : Prop :=
  forall s, self (snd (m s)) = self s /\ exists l, log (snd (m s)) = log s ++ l.

(** The padding loop as a pure traversal. *)
Fixpoint traverse {A B : Type} (f : A -> error + B) (l : list A)
  : error + list B :=
  match l with
  | [] => inr []
  | v :: l' =>
      match f v with
      | inl e => inl e
      | inr b => match traverse f l' with
                 | inl e => inl e
                 | inr bs => inr (b :: bs)
                 end
      end
  end.

(** The value of lines 34-37, from the padded datasets. *)
Definition interpolated (padded : list ndarray) (x_range' : option (list Q))
  : error + option (list Q) :=
  match x_range' with
  | None => inr None
  | Some coords =>
      match py_index padded 0 with
      | inl e => inl e
      | inr d =>
          match np_interp (Q_of_range (range (Z.of_nat (snd (shape d)))))
                          (Q_of_range (range (Z.of_nat (length coords))))
                          coords with
          | inl e => inl e
          | inr v => inr (Some v)
          end
      end
  end.

(** The object once lines 19-40 have run. *)
Definition established (names : option (list string)) (xv yv : Z)
    (w h : Z) (padded : list ndarray) (xr : option (list Q))
    (cid : attr unit) : DifferencePlot :=
  mk_self (Set_ w) (Set_ h) (Set_ names) (Set_ xv) (Set_ yv) (Set_ padded)
          (Set_ xr) (Set_ tt) cid.

(** Lines 41-44. *)
Definition init_tail : M unit :=
  plot_window ;;
  emit (MplConnect "key_release_event") ;;
  setattr (set_key_release_cid tt) ;;
  emit PltShow.

(** Started on any world whose object is [o], [m] returns [v]. *)
Definition returns {A} (o : DifferencePlot) (m : M A) (v : A) : Prop :=
  forall s, self s = o -> fst (m s) = inr v.

(** Started on any world whose object is [o], [m] raises [e]. *)
Definition throws {A} (o : DifferencePlot) (m : M A) (e : error) : Prop :=
  forall s, self s = o -> fst (m s) = inl e.

(** After a successful construction, and after any key releases. *)
Record inv (o : DifferencePlot) (C Tp : nat) (w h : Z) : Prop := mk_inv {
  inv_width : window_width o = Set_ w;
  inv_height : window_height o = Set_ h;
  inv_names : exists names, ch_names o = Set_ names;
  inv_x : exists xv, x o = Set_ xv;
  inv_y : exists yv, y o = Set_ yv;
  inv_datasets :
    exists d ds, datasets o = Set_ (d :: ds) /\
      Forall (fun d' => shape d' = (C, Tp) /\ wf d' = true) (d :: ds);
  inv_x_range :
    exists xr, x_range o = Set_ xr /\
      forall coords, xr = Some coords -> length coords = Tp;
  inv_figure : figure o = Set_ tt;
  inv_wpos : 0 < w;
  inv_div : (w | Z.of_nat Tp);
  inv_Tpos : (0 < Tp)%nat
}.

(** The channel names, when given, name every channel. *)
Definition names_cover (o : DifferencePlot) (C : nat) : Prop :=
  forall names, ch_names o = Set_ names -> truthy names = true ->
    (C <= length (names_list names))%nat.

(** The number of zero columns that line 29 appends. *)
Definition pad_cols (T : nat) (w : Z) : nat :=
  Z.to_nat (w - Z.of_nat T mod w).

Definition Qnat (i : nat) : Q := inject_Z (Z.of_nat i).

(** The object after the dispatch of lines 75-82. *)
Definition moved (key : string) (o : DifferencePlot) : DifferencePlot :=
  if (key =? "left")%string then
    match x o with Set_ xv => set_x (xv - 1) o | Unset => o end
  else if (key =? "right")%string then
    match x o with Set_ xv => set_x (xv + 1) o | Unset => o end
  else if (key =? "up")%string then
    match y o with Set_ yv => set_y (yv - 1) o | Unset => o end
  else if (key =? "down")%string then
    match y o with Set_ yv => set_y (yv + 1) o | Unset => o end
  else o.

(** Every array is well-formed and has shape [(C, T)]. *)
Definition same_shape (C T : nat) (ds : list ndarray) : bool :=
  forallb (fun d => shape_eqb (shape d) (C, T) && wf d) ds.



Definition ones (C T : nat) : ndarray :=
  mk_ndarray (C, T) (repeat (repeat 1%Q T) C).

(** The channel count [self.datasets[0].shape[0]]. *)
Definition channels (s : world) : Z :=
  match datasets (self s) with
  | Set_ (d :: _) => Z.of_nat (fst (shape d))
  | _ => 0
  end.

(** The events of the latest render: those after the last [figure.clear()]. *)
Definition last_render (l : list event) : list event :=
  fold_left (fun acc e => match e with
                          | FigureClear => []
                          | _ => acc ++ [e]
                          end) l [].

(** The subplot titles among some events. *)
Definition titles (l : list event) : list string :=
  flat_map (fun e => match e with
                     | SetTitle t => [t]
                     | _ => []
                     end) l.

Fixpoint increasing_from (a : Q) (l : list Q) : bool :=
  match l with
  | [] => true
  | b :: l' => negb (Qle_bool b a) && increasing_from b l'
  end.

(** Each coordinate is smaller than the next. *)
Definition strictly_increasing (l : list Q) : bool :=
  match l with
  | [] => true
  | a :: l' => increasing_from a l'
  end.

(** ** The functions [read_raw] and [main]

    [main] reads the recordings, shows their time series in one viewer and,
    once that figure is closed, their power spectra in a second one.  What
    it takes from outside is given as parameters: the two readers of
    [mne.io], the spectral estimate [compute_raw_psd], Python's [int] on a
    string ([None] for its [ValueError]), the two lines typed at the
    prompts of [raw_input], and the keys released while each figure is
    shown. *)

(** A recording, as far as [main] looks at it: [raw.info['ch_names']] and
    [raw._data]. *)
Record raw : Type := mk_raw {
  info_ch_names : list string;
  _data : ndarray
}.

(** [s.endswith(suffix)]: the suffix is [s] itself or ends what follows
    the first character of [s]. *)
Fixpoint endswith (s suffix : string) : bool :=
  if (s =? suffix)%string then true
  else match s with
       | EmptyString => false
       | String _ s' => endswith s' suffix
       end.

Section Script.

Variable mne_io_Raw : string -> bool -> error + raw.
Variable mne_io_read_raw_egi : string -> error + raw.
Variable compute_raw_psd : raw -> error + (ndarray * list Q).
Variable int : string -> option Z.

Definition read_raw (filename : string) : error + raw :=
  if endswith filename ".fif"
  then mne_io_Raw filename true
  else mne_io_read_raw_egi filename.

(** [DifferencePlot(...)]: a new object, its constructor, and the keys
    released until the figure is closed; the log is carried along. *)
Definition new_DifferencePlot (datasets' : list ndarray)
    (ch_names' : option (list string)) (x' y' : Z)
    (x_range' : option (list Q)) (window_width' window_height' : Z)
    (keys : list string) (lg : list event)
  : (error + DifferencePlot) * list event :=
  match __init__ datasets' ch_names' x' y' x_range'
                 window_width' window_height' (mk_world new_self lg) with
  | (inl e, s) => (inl e, log s)
  | (inr _, s) => (inr (self (key_releases keys s)),
                   log (key_releases keys s))
  end.

Definition main (paths : list string) (typed1 typed2 : string)
    (keys1 keys2 : list string) (lg : list event)
  : (error + unit) * list event :=
  let time_series_size :=
    match int typed1 with Some n => n | None => 10000 end in
  let power_series_size :=
    match int typed2 with Some n => n | None => 50 end in
  match traverse read_raw paths with
  | inl e => (inl e, lg)
  | inr raw_objects =>
      match py_index raw_objects 0 with
      | inl e => (inl e, lg)
      | inr raw0 =>
          let ch_names' := info_ch_names raw0 in
          let datasets' := map _data raw_objects in
          match new_DifferencePlot datasets' (Some ch_names') 0 0 None
                  time_series_size 5 keys1 lg with
          | (inl e, lg1) => (inl e, lg1)
          | (inr _, lg1) =>
              match traverse compute_raw_psd raw_objects with
              | inl e => (inl e, lg1)
              | inr psds =>
                  match py_index psds 0 with
                  | inl e => (inl e, lg1)
                  | inr psd0 =>
                      let x_range' := snd psd0 in
                      let datasets' := map fst psds in
                      match new_DifferencePlot datasets' (Some ch_names') 0 0
                              (Some x_range') power_series_size 5 keys2 lg1
                      with
                      | (inl e, lg2) => (inl e, lg2)
                      | (inr _, lg2) => (inr tt, lg2)
                      end
                  end
              end
          end
      end
  end.

End Script.

(** Sample collaborators, to run [main] on: a reader of seven samples for
    [.fif] files, one of nine samples for the others, a spectrum of four
    frequencies, and an [int] that knows the numeral 3. *)
Definition sample_Raw (filename : string) (preload : bool) : error + raw :=
  inr (mk_raw ["a"; "b"]%string (ones 2 7)).

Definition sample_read_raw_egi (filename : string) : error + raw :=
  inr (mk_raw ["a"; "b"]%string (ones 2 9)).

Definition sample_psd (r : raw) : error + (ndarray * list Q) :=
  inr (ones 2 4, [1; 2; 3; 4]%Q).

Definition sample_int (s : string) : option Z :=
  if (s =? "3")%string then Some 3 else None.

(** * A render, event by event *)

(** Started on any world whose object is [o], [m] returns [v], leaves the
    object alone and appends exactly the events [l]. *)
Definition runs {A} (o : DifferencePlot) (m : M A) (v : A) (l : list event)
  : Prop :=
  forall s, self s = o -> m s = (inr v, mk_world o (log s ++ l)).













(** How often a key occurs in a sequence of key releases. *)
Definition presses (key : string) (keys : list string) : Z :=
  Z.of_nat (count_occ string_dec keys key).


(** Everything but line 17 raises exceptions of Python and its libraries. *)
Definition builtin (e : error) : Prop :=
  match e with
  | Exception _ => False
  | _ => True
  end.

Definition raises_builtin {A} (m : M A) : Prop :=
  forall s e, fst (m s) = inl e -> builtin e.

(** * The values of float64

    The arrays of the model hold their entries as rationals.  numpy holds
    them as float64: [np.concatenate] with the float64 zero matrix and
    [np.interp] cast what they are given to float64, which leaves a value
    as it is exactly when float64 can hold it.  The finite values of
    float64 are zero and the rationals [m * 2^e] whose highest binary digit
    is at most at position 1023, whose lowest is at least at position -1074,
    and which span at most 53 digits.  Statements about stored values
    assume the given values to be such. *)

(** The number of zeros that end the binary numeral [p]. *)
Fixpoint trailing_zeros (p : positive) : Z :=
  match p with
  | xO p' => 1 + trailing_zeros p'
  | _ => 0
  end.

Fixpoint power_of_two (p : positive) : bool :=
  match p with
  | xH => true
  | xO p' => power_of_two p'
  | xI _ => false
  end.

Definition is_float64 (q : Q) : bool :=
  let r := Qred q in
  match Qnum r with
  | Z0 => true
  | Zpos n | Zneg n =>
      let k := trailing_zeros (Qden r) in
      let high := Z.log2 (Zpos n) - k in
      let low := trailing_zeros n - k in
      power_of_two (Qden r) && (high <=? 1023) && (-1074 <=? low) &&
      (high - low + 1 <=? 53)
  end.

(** Every entry of every array is a float64 value. *)
Definition float64_arrays (ds : list ndarray) : bool :=
  forallb (fun d => forallb (forallb is_float64) (rows d)) ds.

(** * Reasoning about monadic code *)

Lemma bind_inr {A B} (m : M A) (k : A -> M B) s a s' :
  m s = (inr a, s') -> bind m k s = k a s'.
Proof. intros H. unfold bind. now rewrite H. Qed.

Lemma bind_inl {A B} (m : M A) (k : A -> M B) s e s' :
  m s = (inl e, s') -> bind m k s = (inl e, s').
Proof. intros H. unfold bind. now rewrite H. Qed.

Lemma bind_inv {A B} (m : M A) (k : A -> M B) s b s2 :
  bind m k s = (inr b, s2) ->
  exists a s1, m s = (inr a, s1) /\ k a s1 = (inr b, s2).
Proof.
  unfold bind. destruct (m s) as [[e | a] s1]; intros H.
  - discriminate.
  - now exists a, s1.
Qed.

Lemma frame_ret {A} (a : A) : frame (ret a).
Proof. intros s; split; [reflexivity | exists []; simpl; now rewrite app_nil_r]. Qed.

Lemma frame_raise {A} e : frame (@raise A e).
Proof. intros s; split; [reflexivity | exists []; simpl; now rewrite app_nil_r]. Qed.

Lemma frame_lift {A} (r : error + A) : frame (lift r).
Proof. intros s; split; [reflexivity | exists []; simpl; now rewrite app_nil_r]. Qed.

Lemma frame_getattr {A} (a : DifferencePlot -> attr A) : frame (getattr a).
Proof.
  intros s; unfold getattr; destruct (a (self s));
    (split; [reflexivity | exists []; simpl; now rewrite app_nil_r]).
Qed.

Lemma frame_emit e : frame (emit e).
Proof. intros s; split; [reflexivity | now exists [e]]. Qed.

Lemma frame_bind {A B} (m : M A) (k : A -> M B) :
  frame m -> (forall a, frame (k a)) -> frame (bind m k).
Proof.
  intros Hm Hk s. unfold bind.
  destruct (Hm s) as [Hs [l Hl]].
  destruct (m s) as [[e | a] s1]; simpl in *.
  - split; [assumption | now exists l].
  - destruct (Hk a s1) as [Hs1 [l1 Hl1]].
    split; [congruence |].
    exists (l ++ l1). now rewrite Hl1, Hl, app_assoc.
Qed.

Lemma frame_for {A} (l : list A) (body : A -> M unit) :
  (forall v, frame (body v)) -> frame (for_ l body).
Proof.
  intros Hb. induction l as [| v l IH]; simpl.
  - apply frame_ret.
  - apply frame_bind; [apply Hb | intros _; apply IH].
Qed.

Create HintDb frame.
#[local] Hint Resolve frame_ret frame_raise frame_lift frame_getattr
  frame_emit frame_for : frame.

Ltac frame_tac :=
  repeat first
    [ progress cbv beta zeta
    | apply frame_bind; [| intros ? ]
    | solve [ auto with frame ]
    | match goal with
      | |- frame (if ?b then _ else _) => destruct b
      | |- frame (match ?v with Some _ => _ | None => _ end) => destruct v
      | |- frame (let (_, _) := ?p in _) => destruct p
      end
    | apply frame_for; intros ? ].

Lemma frame_datasets0_shape : frame datasets0_shape.
Proof. unfold datasets0_shape. frame_tac. Qed.
#[local] Hint Resolve frame_datasets0_shape : frame.

Lemma frame_window_left w : frame (window_left w).
Proof. unfold window_left. frame_tac. Qed.
#[local] Hint Resolve frame_window_left : frame.

Lemma frame_plot_channel c : frame (plot_channel c).
Proof. unfold plot_channel. frame_tac. Qed.
#[local] Hint Resolve frame_plot_channel : frame.

Lemma frame_plot_window : frame plot_window.
Proof. unfold plot_window. frame_tac. Qed.

(** * The shape check *)

Lemma distinct_shapes_1_inv ds :
  distinct_shapes ds = 1%nat ->
  exists d ds', ds = d :: ds' /\ Forall (fun d' => shape d' = shape d) ds.
Proof.
  unfold distinct_shapes. intros H.
  destruct ds as [| d ds']; [discriminate |].
  exists d, ds'. split; [reflexivity |].
  remember (nodup shape_eq_dec (map shape (d :: ds'))) as u eqn:Hu.
  destruct u as [| a [| b u']]; try discriminate.
  assert (Hall : forall d', In d' (d :: ds') -> shape d' = a).
  { intros d' Hin.
    assert (In (shape d') [a]) as [E | []]; [| now symmetry].
    rewrite Hu. apply nodup_In. now apply in_map. }
  apply Forall_forall. intros d' Hin.
  rewrite (Hall d' Hin). symmetry. apply Hall. now left.
Qed.

Lemma distinct_shapes_1_intro ds sh :
  ds <> [] -> Forall (fun d => shape d = sh) ds -> distinct_shapes ds = 1%nat.
Proof.
  unfold distinct_shapes. intros Hne Hall.
  assert (Hnd := NoDup_nodup shape_eq_dec (map shape ds)).
  assert (Hin : forall a, In a (nodup shape_eq_dec (map shape ds)) -> a = sh).
  { intros a Ha. apply nodup_In in Ha. apply in_map_iff in Ha.
    destruct Ha as [d [<- Hd]]. rewrite Forall_forall in Hall. now apply Hall. }
  destruct (nodup shape_eq_dec (map shape ds)) as [| a [| b u]] eqn:Hu.
  - destruct ds as [| d ds']; [congruence |].
    assert (In (shape d) []) as [].
    rewrite <- Hu. apply nodup_In. now left.
  - reflexivity.
  - exfalso. inversion Hnd as [| ? ? Hnot _]; subst. apply Hnot.
    left. rewrite (Hin a), (Hin b); simpl; auto.
Qed.

Lemma distinct_shapes_differing ds d1 d2 :
  In d1 ds -> In d2 ds -> shape d1 <> shape d2 ->
  distinct_shapes ds <> 1%nat.
Proof.
  intros H1 H2 Hne H.
  destruct (distinct_shapes_1_inv ds H) as [d [ds' [-> Hall]]].
  rewrite Forall_forall in Hall.
  apply Hne. now rewrite (Hall d1 H1), (Hall d2 H2).
Qed.

(** * Padding *)

Lemma pad_pos w d :
  0 < w ->
  pad w d =
  inr (mk_ndarray
         (fst (shape d),
          (snd (shape d) + Z.to_nat (w - Z.of_nat (snd (shape d)) mod w))%nat)
         (zip_app (rows d)
            (repeat (repeat 0%Q
                       (Z.to_nat (w - Z.of_nat (snd (shape d)) mod w)))
                    (fst (shape d))))).
Proof.
  intros Hw. unfold pad, py_mod.
  destruct (Z.eqb_spec w 0) as [E | _]; [lia |].
  unfold np_zeros.
  assert (Hm := Z.mod_pos_bound (Z.of_nat (snd (shape d))) w Hw).
  destruct (Z.ltb_spec (w - Z.of_nat (snd (shape d)) mod w) 0) as [E | _]; [lia |].
  unfold np_concatenate1. simpl. now rewrite Nat.eqb_refl.
Qed.

Lemma zip_app_repeat (rs : list (list Q)) (z : list Q) :
  zip_app rs (repeat z (length rs)) = map (fun r => r ++ z) rs.
Proof. induction rs as [| r rs IH]; simpl; [reflexivity | now rewrite IH]. Qed.

Lemma wf_inv d :
  wf d = true ->
  length (rows d) = fst (shape d) /\
  Forall (fun r => length r = snd (shape d)) (rows d).
Proof.
  unfold wf. intros H. apply andb_prop in H as [H1 H2].
  apply Nat.eqb_eq in H1. split; [assumption |].
  apply Forall_forall. intros r Hr.
  rewrite forallb_forall in H2. apply Nat.eqb_eq. now apply H2.
Qed.

Lemma wf_intro d :
  length (rows d) = fst (shape d) ->
  Forall (fun r => length r = snd (shape d)) (rows d) ->
  wf d = true.
Proof.
  intros H1 H2. unfold wf. apply andb_true_intro. split.
  - now apply Nat.eqb_eq.
  - apply forallb_forall. intros r Hr. apply Nat.eqb_eq.
    rewrite Forall_forall in H2. now apply H2.
Qed.

(** On a well-formed array and a positive width, padding appends
    [width - T % width] zeros to every row. *)
Lemma pad_wf w d :
  0 < w -> wf d = true ->
  exists p, pad w d = inr p /\ wf p = true /\
    shape p = (fst (shape d),
               (snd (shape d) + Z.to_nat (w - Z.of_nat (snd (shape d)) mod w))%nat) /\
    rows p = map (fun r => r ++ repeat 0%Q
                    (Z.to_nat (w - Z.of_nat (snd (shape d)) mod w))) (rows d).
Proof.
  intros Hw Hwf. destruct (wf_inv d Hwf) as [Hlen Hrows].
  eexists. split; [apply (pad_pos w d Hw) |].
  rewrite <- Hlen, zip_app_repeat. simpl. split; [| split; reflexivity].
  apply wf_intro; simpl.
  - now rewrite length_map.
  - apply Forall_forall. intros r Hr. apply in_map_iff in Hr.
    destruct Hr as [r0 [<- Hr0]]. rewrite length_app, repeat_length.
    rewrite Forall_forall in Hrows. now rewrite (Hrows r0 Hr0).
Qed.

(** * The constructor, statement by statement *)

Lemma for_append_lift {A B} (f : A -> error + B) (l : list A) s :
  for_append l (fun v => lift (f v)) s = (traverse f l, s).
Proof.
  induction l as [| v l IH]; simpl; [reflexivity |].
  unfold bind, lift at 1. destruct (f v) as [e | b]; [reflexivity |].
  rewrite IH. destruct (traverse f l); reflexivity.
Qed.

Lemma init_eq ds names xv yv xr w h s0 :
  __init__ ds names xv yv xr w h s0 =
  if Nat.eqb (distinct_shapes ds) 1 then
    match traverse (pad w) ds with
    | inl e =>
        (inl e,
         mk_world (mk_self (Set_ w) (Set_ h) (Set_ names) (Set_ xv) (Set_ yv)
                     (datasets (self s0)) (x_range (self s0))
                     (figure (self s0)) (key_release_cid (self s0)))
                  (log s0))
    | inr padded =>
        match interpolated padded xr with
        | inl e =>
            (inl e,
             mk_world (mk_self (Set_ w) (Set_ h) (Set_ names) (Set_ xv)
                         (Set_ yv) (Set_ padded) (x_range (self s0))
                         (figure (self s0)) (key_release_cid (self s0)))
                      (log s0))
        | inr xr' =>
            init_tail
              (mk_world (established names xv yv w h padded xr'
                           (key_release_cid (self s0)))
                        (log s0 ++ [PltFigure]))
        end
    end
  else (inl ShapeMismatch, s0).
Proof.
  unfold __init__.
  destruct (Nat.eqb (distinct_shapes ds) 1); [| reflexivity].
  unfold bind at 1. simpl.
  do 5 (unfold bind at 1; simpl).
  unfold bind at 1. rewrite for_append_lift.
  destruct (traverse (pad w) ds) as [e | padded]; [reflexivity |].
  unfold bind at 1. simpl.
  unfold bind at 1.
  destruct xr as [coords |]; simpl.
  - unfold datasets0_shape, bind, getattr, lift, interpolated; simpl.
    destruct (py_index padded 0) as [e | d]; [reflexivity |]. simpl.
    destruct (np_interp _ _ coords) as [e | v]; reflexivity.
  - reflexivity.
Qed.

(** * Indexing, slicing and wrapping *)

Lemma window_start_bounds (xv w Tp : Z) :
  0 < w -> 0 < Tp -> (w | Tp) ->
  0 <= (xv * w) mod Tp <= Tp - w.
Proof.
  intros Hw HT [k Hk]. subst Tp.
  assert (Hkpos : 0 < k) by nia.
  rewrite Z.mul_mod_distr_r by lia.
  assert (Hb := Z.mod_pos_bound xv k Hkpos). nia.
Qed.

Lemma py_mod_pos a b :
  0 < b -> py_mod a b = inr (a mod b) /\ 0 <= a mod b <= b - 1.
Proof.
  intros Hb. unfold py_mod.
  destruct (Z.eqb_spec b 0); [lia |].
  split; [reflexivity |]. assert (H := Z.mod_pos_bound a b Hb). lia.
Qed.

Lemma py_index_in_range {A} (l : list A) (i : Z) :
  0 <= i < Z.of_nat (length l) ->
  exists v, py_index l i = inr v /\ nth_error l (Z.to_nat i) = Some v.
Proof.
  intros Hi. unfold py_index. cbv zeta.
  assert (E1 : (i <? 0) = false) by (apply Z.ltb_ge; lia).
  assert (E2 : (Z.of_nat (length l) <=? i) = false) by (apply Z.leb_gt; lia).
  rewrite E1. cbv iota. rewrite E1, E2. simpl.
  destruct (nth_error l (Z.to_nat i)) as [v |] eqn:Hn.
  - exists v. split; reflexivity.
  - apply nth_error_None in Hn. lia.
Qed.

Lemma py_slice_in_range {A} (l : list A) (a w : Z) :
  0 <= a -> 0 <= w -> a + w <= Z.of_nat (length l) ->
  py_slice l a (a + w) = firstn (Z.to_nat w) (skipn (Z.to_nat a) l) /\
  length (py_slice l a (a + w)) = Z.to_nat w.
Proof.
  intros Ha Hw Hlen. unfold py_slice, py_clamp. cbv zeta.
  assert (E1 : (a <? 0) = false) by (apply Z.ltb_ge; lia).
  assert (E2 : (a + w <? 0) = false) by (apply Z.ltb_ge; lia).
  rewrite E1, E2.
  rewrite !Z.min_l by lia.
  replace (a + w - a) with w by lia.
  split; [reflexivity |].
  rewrite length_firstn, length_skipn. lia.
Qed.

Lemma range2_length a b : 0 <= b - a -> length (range2 a b) = Z.to_nat (b - a).
Proof. intros _. unfold range2. now rewrite length_map, length_seq. Qed.

Lemma range_In h r : In r (range h) <-> 0 <= r < h.
Proof.
  unfold range. rewrite in_map_iff. split.
  - intros [n [<- Hn]]. apply in_seq in Hn. lia.
  - intros Hr. exists (Z.to_nat r). split; [lia |]. apply in_seq. lia.
Qed.

Lemma getattr_set {A} (a : DifferencePlot -> attr A) s v :
  a (self s) = Set_ v -> getattr a s = (inr v, s).
Proof. intros H. unfold getattr. now rewrite H. Qed.

Lemma getattr_unset {A} (a : DifferencePlot -> attr A) s :
  a (self s) = Unset -> getattr a s = (inl AttributeError, s).
Proof. intros H. unfold getattr. now rewrite H. Qed.

(** * Outcomes of computations that leave the object alone *)

Lemma returns_ret {A} o (a : A) : returns o (ret a) a.
Proof. intros s _. reflexivity. Qed.

Lemma returns_lift {A} o (r : error + A) v : r = inr v -> returns o (lift r) v.
Proof. intros -> s _. reflexivity. Qed.

Lemma returns_emit o e : returns o (emit e) tt.
Proof. intros s _. reflexivity. Qed.

Lemma returns_getattr {A} o (a : DifferencePlot -> attr A) v :
  a o = Set_ v -> returns o (getattr a) v.
Proof. intros H s <-. now rewrite (getattr_set _ _ _ H). Qed.

Lemma returns_bind {A B} o (m : M A) (k : A -> M B) a b :
  frame m -> returns o m a -> returns o (k a) b -> returns o (bind m k) b.
Proof.
  intros Hf Hm Hk s Hs. unfold bind.
  specialize (Hm s Hs). destruct (Hf s) as [Hself _].
  destruct (m s) as [[e | a'] s1]; simpl in *; [discriminate |].
  injection Hm as ->. apply Hk. congruence.
Qed.

Lemma returns_for {A} o (l : list A) (body : A -> M unit) :
  (forall v, frame (body v)) ->
  (forall v, In v l -> returns o (body v) tt) ->
  returns o (for_ l body) tt.
Proof.
  intros Hf. induction l as [| v l IH]; intros Hb; simpl.
  - apply returns_ret.
  - apply returns_bind with (a := tt).
    + apply Hf.
    + apply Hb. now left.
    + apply IH. intros v' Hv'. apply Hb. now right.
Qed.

Lemma throws_lift {A} o e : throws o (@lift A (inl e)) e.
Proof. intros s _. reflexivity. Qed.

Lemma throws_getattr {A} o (a : DifferencePlot -> attr A) :
  a o = Unset -> throws o (getattr a) AttributeError.
Proof. intros H s <-. now rewrite (getattr_unset _ _ H). Qed.

Lemma throws_bind_l {A B} o (m : M A) (k : A -> M B) e :
  throws o m e -> throws o (bind m k) e.
Proof.
  intros Hm s Hs. unfold bind. specialize (Hm s Hs).
  destruct (m s) as [[e' | a'] s1]; simpl in *; congruence.
Qed.

Lemma throws_bind_r {A B} o (m : M A) (k : A -> M B) a e :
  frame m -> returns o m a -> throws o (k a) e -> throws o (bind m k) e.
Proof.
  intros Hf Hm Hk s Hs. unfold bind.
  specialize (Hm s Hs). destruct (Hf s) as [Hself _].
  destruct (m s) as [[e' | a'] s1]; simpl in *; [discriminate |].
  injection Hm as ->. apply Hk. congruence.
Qed.

Lemma returns_datasets0_shape o d ds :
  datasets o = Set_ (d :: ds) -> returns o datasets0_shape (shape d).
Proof.
  intros H. unfold datasets0_shape.
  eapply returns_bind; [frame_tac | apply returns_getattr, H |].
  eapply returns_bind; [frame_tac | apply returns_lift; reflexivity |].
  apply returns_ret.
Qed.

Lemma returns_window_left o d ds xv w :
  datasets o = Set_ (d :: ds) -> x o = Set_ xv -> (0 < snd (shape d))%nat ->
  returns o (window_left w) ((xv * w) mod Z.of_nat (snd (shape d))).
Proof.
  intros Hd Hx Hpos. unfold window_left.
  eapply returns_bind; [frame_tac | apply returns_getattr, Hx |].
  eapply returns_bind;
    [frame_tac | apply (returns_datasets0_shape o d ds Hd) |].
  apply returns_lift. apply py_mod_pos. lia.
Qed.

Ltac rbind lem :=
  eapply returns_bind; [ frame_tac | lem | cbv beta ].

Lemma returns_plot_traces o (ds : list ndarray) C Tp rc left w xs :
  Forall (fun d' => shape d' = (C, Tp) /\ wf d' = true) ds ->
  0 <= rc < Z.of_nat C ->
  0 <= left -> 0 <= w -> left + w <= Z.of_nat Tp ->
  length xs = Z.to_nat w ->
  returns o
    (for_ ds (fun dataset =>
       data <- lift (py_index (rows dataset) rc) ;;
       let ys := py_slice data left (left + w) in
       if Nat.eqb (length xs) (length ys)
       then emit (AxPlot xs ys)
       else raise ValueError)) tt.
Proof.
  intros Hall Hrc Hl Hw Hlw Hxs.
  apply returns_for; [intros v; frame_tac |].
  intros dataset Hin. rewrite Forall_forall in Hall.
  destruct (Hall dataset Hin) as [Hsh Hwf].
  destruct (wf_inv dataset Hwf) as [Hlen Hrows].
  rewrite Hsh in Hlen, Hrows. simpl in Hlen, Hrows.
  destruct (py_index_in_range (rows dataset) rc) as [data [Hidx Hnth]];
    [lia |].
  rbind ltac:(apply returns_lift, Hidx).
  assert (Hdata : length data = Tp).
  { rewrite Forall_forall in Hrows. apply Hrows.
    eapply nth_error_In, Hnth. }
  destruct (py_slice_in_range data left w Hl Hw) as [_ Hys]; [lia |].
  cbv zeta. rewrite Hys, Hxs, Nat.eqb_refl. apply returns_emit.
Qed.

Lemma returns_plot_channel o C Tp w h c :
  inv o C Tp w h -> (0 < C)%nat -> names_cover o C ->
  returns o (plot_channel c) tt.
Proof.
  intros [Hw Hh [names Hn] [xv Hx] [yv Hy] [d [ds [Hds Hall]]]
          [xr [Hxr Hcoords]] Hfig Hwpos Hdiv HT] HC Hcover.
  assert (Hsh : shape d = (C, Tp)) by (inversion Hall; tauto).
  assert (Hleft := window_start_bounds xv w (Z.of_nat Tp) Hwpos
                     ltac:(lia) Hdiv).
  assert (Hwl : returns o (window_left w) ((xv * w) mod Z.of_nat Tp)).
  { replace Tp with (snd (shape d)) by now rewrite Hsh.
    apply (returns_window_left o d ds xv w Hds Hx). rewrite Hsh. exact HT. }
  destruct (py_mod_pos (yv + c) (Z.of_nat C) ltac:(lia)) as [Hrc Hrcb].
  unfold plot_channel.
  rbind ltac:(apply returns_getattr, Hy).
  rbind ltac:(apply (returns_datasets0_shape o d ds Hds)).
  rewrite Hsh. cbn [fst snd].
  rbind ltac:(apply returns_lift, Hrc).
  rbind ltac:(apply returns_getattr, Hw).
  rbind ltac:(apply Hwl).
  rbind ltac:(apply returns_getattr, Hh).
  rbind ltac:(apply returns_emit).
  rbind ltac:(apply returns_getattr, Hn).
  eapply returns_bind with (a := tt); [frame_tac | |].
  { destruct (truthy names) eqn:Htr; [| apply returns_ret].
    specialize (Hcover names Hn Htr).
    destruct (py_index_in_range (names_list names) ((yv + c) mod Z.of_nat C))
      as [title [Hidx _]]; [lia |].
    rbind ltac:(apply returns_lift, Hidx). apply returns_emit. }
  rbind ltac:(apply returns_getattr, Hxr).
  destruct xr as [coords |].
  - specialize (Hcoords coords eq_refl).
    destruct (py_index_in_range coords ((xv * w) mod Z.of_nat Tp))
      as [lo [Hlo _]]; [lia |].
    destruct (py_index_in_range coords ((xv * w) mod Z.of_nat Tp + w - 1))
      as [hi [Hhi _]]; [lia |].
    destruct (py_slice_in_range coords ((xv * w) mod Z.of_nat Tp) w)
      as [_ Hxs]; [lia | lia | lia |].
    eapply returns_bind; [frame_tac | |].
    { rbind ltac:(apply Hwl). rbind ltac:(apply Hwl).
      rbind ltac:(apply returns_lift, Hlo).
      rbind ltac:(apply returns_lift, Hhi).
      rbind ltac:(apply returns_emit). apply returns_ret. }
    cbv beta iota.
    rbind ltac:(apply returns_getattr, Hds).
    apply (returns_plot_traces o (d :: ds) C Tp); auto; lia.
  - eapply returns_bind; [frame_tac | |].
    { rbind ltac:(apply returns_emit). apply returns_ret. }
    cbv beta iota.
    rbind ltac:(apply returns_getattr, Hds).
    apply (returns_plot_traces o (d :: ds) C Tp); auto; try lia.
    unfold Q_of_range. rewrite length_map, range2_length by lia.
    f_equal. lia.
Qed.

Lemma returns_plot_window o C Tp w h :
  inv o C Tp w h -> (0 < h -> (0 < C)%nat) -> names_cover o C ->
  returns o plot_window tt.
Proof.
  intros Hinv HC Hcover. unfold plot_window.
  rbind ltac:(apply returns_getattr, (inv_figure _ _ _ _ _ Hinv)).
  rbind ltac:(apply returns_emit).
  rbind ltac:(apply returns_getattr, (inv_height _ _ _ _ _ Hinv)).
  eapply returns_bind with (a := tt); [frame_tac | | apply returns_emit].
  apply returns_for; [intros v; frame_tac |].
  intros c Hc. apply range_In in Hc.
  apply (returns_plot_channel o C Tp w h c Hinv); [apply HC; lia | exact Hcover].
Qed.

(** With no channel at all the first row of the render divides by zero. *)
Lemma range_pos h : 0 < h -> exists rest, range h = 0 :: rest.
Proof.
  intros Hh. unfold range.
  destruct (Z.to_nat h) as [| n] eqn:E; [lia |].
  simpl. now eexists.
Qed.

Lemma throws_plot_window_no_channel o h yv d ds :
  figure o = Set_ tt -> window_height o = Set_ h -> 0 < h ->
  y o = Set_ yv -> datasets o = Set_ (d :: ds) -> fst (shape d) = 0%nat ->
  throws o plot_window ZeroDivisionError.
Proof.
  intros Hfig Hh Hpos Hy Hds HC. unfold plot_window.
  eapply throws_bind_r; [frame_tac | apply returns_getattr, Hfig |].
  eapply throws_bind_r; [frame_tac | apply returns_emit |].
  eapply throws_bind_r; [frame_tac | apply returns_getattr, Hh |].
  apply throws_bind_l.
  destruct (range_pos h Hpos) as [rest ->]. simpl.
  apply throws_bind_l. unfold plot_channel.
  eapply throws_bind_r; [frame_tac | apply returns_getattr, Hy |].
  eapply throws_bind_r;
    [frame_tac | apply (returns_datasets0_shape o d ds Hds) |].
  apply throws_bind_l. rewrite HC. apply throws_lift.
Qed.

(** * The padded datasets *)

Lemma traverse_pad_ok w C T ds :
  0 < w ->
  Forall (fun d => shape d = (C, T) /\ wf d = true) ds ->
  exists padded,
    traverse (pad w) ds = inr padded /\
    Forall (fun p => shape p = (C, (T + pad_cols T w)%nat) /\ wf p = true)
           padded /\
    Forall2 (fun d p =>
               rows p = map (fun r => r ++ repeat 0%Q (pad_cols T w)) (rows d))
            ds padded.
Proof.
  intros Hw. induction 1 as [| d ds [Hsh Hwf] _ IH]; simpl.
  - exists []. repeat split; constructor.
  - destruct (pad_wf w d Hw Hwf) as [p [Hp [Hpwf [Hpsh Hprows]]]].
    destruct IH as [padded [Ht [Hall Hrel]]].
    rewrite Hp, Ht. exists (p :: padded).
    rewrite Hsh in Hpsh, Hprows. simpl in Hpsh, Hprows.
    repeat split.
    + constructor; [now split | assumption].
    + constructor; assumption.
Qed.

Lemma pad_width_pos w d p : pad w d = inr p -> 0 < w.
Proof.
  unfold pad, py_mod. destruct (Z.eqb_spec w 0) as [| Hne]; [discriminate |].
  unfold np_zeros.
  destruct (Z.ltb_spec (w - Z.of_nat (snd (shape d)) mod w) 0) as [| Hge];
    [discriminate |].
  intros _. destruct (Z.lt_trichotomy w 0) as [Hneg | [? | ?]]; try lia.
  assert (H := Z.mod_neg_bound (Z.of_nat (snd (shape d))) w Hneg). lia.
Qed.

Lemma traverse_pad_width_pos w d ds padded :
  traverse (pad w) (d :: ds) = inr padded -> 0 < w.
Proof.
  simpl. destruct (pad w d) as [e | p] eqn:Hp; [discriminate |].
  intros _. exact (pad_width_pos w d p Hp).
Qed.

Lemma pad_cols_divide T w :
  0 < w -> (w | Z.of_nat (T + pad_cols T w)).
Proof.
  intros Hw. unfold pad_cols.
  assert (Hb := Z.mod_pos_bound (Z.of_nat T) w Hw).
  exists (Z.of_nat T / w + 1).
  assert (Hd := Z.div_mod (Z.of_nat T) w ltac:(lia)). nia.
Qed.

Lemma pad_cols_pos T w : 0 < w -> (0 < pad_cols T w)%nat.
Proof.
  intros Hw. unfold pad_cols.
  assert (Hb := Z.mod_pos_bound (Z.of_nat T) w Hw). lia.
Qed.

(** * Interpolation on the integer grid *)

Lemma Q_of_range_nat n :
  Q_of_range (range (Z.of_nat n)) = map Qnat (seq 0 n).
Proof. unfold Q_of_range, range. now rewrite Nat2Z.id, map_map. Qed.

Lemma interp_from_grid fs : forall a f0 i,
  (a <= i)%nat ->
  interp_from (Qnat i) (Qnat a) f0
    (combine (map Qnat (seq (S a) (length fs))) fs) =
  nth (Nat.min (i - a) (length fs)) (f0 :: fs) 0%Q.
Proof.
  induction fs as [| f1 fs IH]; intros a f0 i Hai.
  - simpl. now rewrite Nat.min_0_r.
  - cbn [length seq map combine interp_from].
    destruct (Qlt_le_dec (Qnat i) (Qnat (S a))) as [Hlt | Hle].
    + unfold Qnat in Hlt. rewrite <- Zlt_Qlt in Hlt.
      assert (i = a) as -> by lia.
      rewrite Qeq_bool_refl, Nat.sub_diag. reflexivity.
    + unfold Qnat in Hle. rewrite <- Zle_Qle in Hle.
      rewrite IH by lia.
      replace (i - a)%nat with (S (i - S a)) by lia.
      reflexivity.
Qed.

Lemma interp_at_grid f0 fs i :
  interp_at (combine (map Qnat (seq 0 (length (f0 :: fs)))) (f0 :: fs))
            (Qnat i) =
  nth (Nat.min i (length fs)) (f0 :: fs) 0%Q.
Proof.
  cbn [length seq map combine interp_at].
  destruct (Qlt_le_dec (Qnat i) (Qnat 0)) as [Hlt | _].
  - unfold Qnat in Hlt. rewrite <- Zlt_Qlt in Hlt. lia.
  - rewrite interp_from_grid by lia. now rewrite Nat.sub_0_r.
Qed.

Lemma last_as_nth {A} (l : list A) d : last l d = nth (length l - 1) l d.
Proof.
  induction l as [| a [| b l] IH]; try reflexivity.
  change (last (a :: b :: l) d) with (last (b :: l) d). rewrite IH.
  simpl. now rewrite Nat.sub_0_r.
Qed.

(** On the grid [0, 1, ..] the interpolation returns the coordinates
    themselves and then holds the last one. *)
Lemma np_interp_grid coords k :
  coords <> [] ->
  np_interp (Q_of_range (range (Z.of_nat (length coords + k))))
            (Q_of_range (range (Z.of_nat (length coords)))) coords =
  inr (coords ++ repeat (last coords 0%Q) k).
Proof.
  intros Hne. unfold np_interp. rewrite !Q_of_range_nat.
  rewrite length_map, length_seq, Nat.eqb_refl. simpl negb. cbv iota.
  destruct coords as [| f0 fs]; [congruence |].
  cbn [length seq map]. f_equal.
  change (Qnat 0 :: map Qnat (seq 1 (length fs)))
    with (map Qnat (seq 0 (length (f0 :: fs)))).
  apply (nth_ext _ _ 0%Q 0%Q).
  - rewrite !length_map, length_seq, length_app, repeat_length. reflexivity.
  - intros i Hi. rewrite !length_map, length_seq in Hi.
    rewrite map_map.
    set (g := fun n : nat => interp_at _ (Qnat n)).
    rewrite (nth_indep _ _ (g 0%nat)) by now rewrite length_map, length_seq.
    rewrite (map_nth g), seq_nth by assumption.
    subst g. cbv beta. rewrite Nat.add_0_l, interp_at_grid.
    destruct (Nat.lt_ge_cases i (length (f0 :: fs))) as [Hin | Hout].
    + rewrite app_nth1 by assumption.
      f_equal. simpl in Hin. lia.
    + rewrite app_nth2 by assumption.
      rewrite nth_repeat_lt by (simpl in *; lia).
      rewrite last_as_nth. f_equal. simpl in *. lia.
Qed.

(** * The key handler *)

Lemma world_eta s : mk_world (self s) (log s) = s.
Proof. now destruct s. Qed.

Lemma on_key_release_eq key s xv yv :
  x (self s) = Set_ xv -> y (self s) = Set_ yv ->
  on_key_release key s = plot_window (mk_world (moved key (self s)) (log s)).
Proof.
  intros Hx Hy. unfold on_key_release, moved.
  repeat match goal with
         | |- context [if ?b then _ else _] => destruct b
         end;
    unfold bind;
    rewrite ?(getattr_set x s xv Hx), ?(getattr_set y s yv Hy), ?Hx, ?Hy;
    try reflexivity.
  unfold ret. now rewrite world_eta.
Qed.

Lemma on_key_release_self key s :
  self (snd (on_key_release key s)) = moved key (self s).
Proof.
  unfold on_key_release, moved.
  repeat match goal with
         | |- context [if ?b then _ else _] => destruct b
         end;
    unfold bind, getattr;
    try (destruct (x (self s)); simpl;
         [reflexivity | now rewrite (proj1 (frame_plot_window _))]);
    try (destruct (y (self s)); simpl;
         [reflexivity | now rewrite (proj1 (frame_plot_window _))]).
  unfold ret. apply (proj1 (frame_plot_window s)).
Qed.

Lemma inv_moved key o C Tp w h :
  inv o C Tp w h -> inv (moved key o) C Tp w h.
Proof.
  intros [Hw Hh Hn [xv Hx] [yv Hy] Hds Hxr Hfig Hwpos Hdiv HT].
  unfold moved. rewrite Hx, Hy.
  repeat match goal with
         | |- context [if ?b then _ else _] => destruct b
         end;
    constructor; simpl; eauto.
Qed.

Lemma key_releases_inv keys : forall s C Tp w h,
  inv (self s) C Tp w h -> inv (self (key_releases keys s)) C Tp w h.
Proof.
  unfold key_releases.
  induction keys as [| key keys IH]; intros s C Tp w h Hinv; simpl.
  - exact Hinv.
  - apply IH. rewrite on_key_release_self. now apply inv_moved.
Qed.


Lemma moved_window key o :
  window_width (moved key o) = window_width o /\
  window_height (moved key o) = window_height o.
Proof.
  unfold moved.
  repeat match goal with
         | |- context [if ?b then _ else _] => destruct b
         end; destruct (x o), (y o); split; reflexivity.
Qed.

(** * The constructor as a whole *)

Lemma init_tail_ok s1 :
  fst (plot_window s1) = inr tt ->
  exists l, init_tail s1 =
            (inr tt, mk_world (set_key_release_cid tt (self s1)) (log s1 ++ l)).
Proof.
  intros Hok. unfold init_tail, bind.
  destruct (frame_plot_window s1) as [Hself [l Hl]].
  destruct (plot_window s1) as [[e | []] s2]; simpl in *; [discriminate |].
  exists (l ++ [MplConnect "key_release_event"; PltShow]).
  unfold emit, setattr. simpl.
  rewrite Hself, Hl, <- !app_assoc. reflexivity.
Qed.

Lemma init_tail_ok_inv s1 s :
  init_tail s1 = (inr tt, s) ->
  fst (plot_window s1) = inr tt /\
  self s = set_key_release_cid tt (self s1).
Proof.
  unfold init_tail, bind.
  destruct (frame_plot_window s1) as [Hself _].
  destruct (plot_window s1) as [[e | []] s2]; simpl in *; [discriminate |].
  intros H. injection H as <-. simpl. now rewrite Hself.
Qed.

(** Whatever the first render does, lines 41-44 touch no attribute but
    [key_release_cid]. *)
Lemma init_tail_attrs s1 :
  datasets (self (snd (init_tail s1))) = datasets (self s1) /\
  x_range (self (snd (init_tail s1))) = x_range (self s1).
Proof.
  unfold init_tail, bind.
  destruct (frame_plot_window s1) as [Hself _].
  destruct (plot_window s1) as [[e | []] s2]; simpl in *; now rewrite Hself.
Qed.

Lemma np_interp_length xs xp fp v :
  np_interp xs xp fp = inr v -> length v = length xs.
Proof.
  unfold np_interp. destruct (negb _); [discriminate |].
  destruct xp; [discriminate |]. intros H. injection H as <-.
  apply length_map.
Qed.

Lemma Q_of_range_length n : length (Q_of_range (range (Z.of_nat n))) = n.
Proof. now rewrite Q_of_range_nat, length_map, length_seq. Qed.

Lemma forallb_wf ds C T :
  forallb wf ds = true -> Forall (fun d => shape d = (C, T)) ds ->
  Forall (fun d => shape d = (C, T) /\ wf d = true) ds.
Proof.
  intros Hwf Hsh. rewrite forallb_forall in Hwf.
  rewrite Forall_forall in *. intros d Hd. split; auto.
Qed.

Lemma inv_established names xv yv w h p ps xr cid C Tp :
  Forall (fun d' => shape d' = (C, Tp) /\ wf d' = true) (p :: ps) ->
  (forall coords, xr = Some coords -> length coords = Tp) ->
  0 < w -> (w | Z.of_nat Tp) -> (0 < Tp)%nat ->
  inv (established names xv yv w h (p :: ps) xr cid) C Tp w h.
Proof.
  intros Hall Hxr Hw Hdiv HT. constructor; simpl; eauto.
Qed.

(** What a successful construction establishes. *)
Lemma init_ok_inv ds names xv yv xr w h s0 s :
  forallb wf ds = true ->
  __init__ ds names xv yv xr w h s0 = (inr tt, s) ->
  exists C T d ds' padded xr',
    ds = d :: ds' /\
    Forall (fun d' => shape d' = (C, T)) ds /\
    0 < w /\
    traverse (pad w) ds = inr padded /\
    interpolated padded xr = inr xr' /\
    self s = established names xv yv w h padded xr' (Set_ tt) /\
    inv (self s) C (T + pad_cols T w) w h /\
    (0 < h -> (0 < C)%nat).
Proof.
  intros Hwf. rewrite init_eq.
  destruct (Nat.eqb_spec (distinct_shapes ds) 1) as [H1 | _]; [| discriminate].
  destruct (distinct_shapes_1_inv ds H1) as [d [ds' [-> Hsh]]].
  destruct (shape d) as [C T] eqn:Hd.
  destruct (traverse (pad w) (d :: ds')) as [e | padded] eqn:Ht;
    [discriminate |].
  assert (Hw := traverse_pad_width_pos w d ds' padded Ht).
  destruct (traverse_pad_ok w C T (d :: ds') Hw (forallb_wf _ _ _ Hwf Hsh))
    as [padded' [Ht' [Hall Hrel]]].
  assert (padded' = padded) as -> by congruence.
  destruct padded as [| p ps]; [inversion Hrel |].
  destruct (interpolated (p :: ps) xr) as [e | xr'] eqn:Hi; [discriminate |].
  intros Htail. apply init_tail_ok_inv in Htail as [Hplot Hself].
  simpl in Hself.
  exists C, T, d, ds', (p :: ps), xr'.
  assert (Hinv : inv (self s) C (T + pad_cols T w) w h).
  { rewrite Hself. apply inv_established; auto.
    - intros coords ->. unfold interpolated in Hi.
      destruct xr as [c0 |]; [| discriminate]. simpl in Hi.
      destruct (np_interp _ _ c0) as [e | v] eqn:Hv; [discriminate |].
      injection Hi as <-. apply np_interp_length in Hv. rewrite Hv.
      inversion Hall as [| ? ? [Hp _] _]; subst.
      rewrite Hp. apply Q_of_range_length.
    - now apply pad_cols_divide.
    - assert (H := pad_cols_pos T w Hw). lia. }
  do 7 (split; [first [reflexivity | assumption] |]).
  intros Hh. destruct C as [| C']; [exfalso | lia].
  inversion Hall as [| ? ? [Hp _] _]; subst.
  assert (Hthrow := throws_plot_window_no_channel
                      (established names xv yv w h (p :: ps) xr'
                         (key_release_cid (self s0)))
                      h yv p ps eq_refl eq_refl Hh eq_refl eq_refl
                      ltac:(now rewrite Hp)).
  specialize (Hthrow (mk_world _ (log s0 ++ [PltFigure])) eq_refl).
  congruence.
Qed.

(** * The claims *)

Lemma same_shape_Forall C T ds :
  same_shape C T ds = true ->
  Forall (fun d => shape d = (C, T) /\ wf d = true) ds.
Proof.
  unfold same_shape. rewrite forallb_forall, Forall_forall.
  intros H d Hd. specialize (H d Hd). apply andb_prop in H as [H1 H2].
  split; [| assumption]. unfold shape_eqb in H1.
  now destruct (shape_eq_dec (shape d) (C, T)).
Qed.


Lemma T_padded_established names xv yv w h p ps xr cid l :
  T_padded (mk_world (established names xv yv w h (p :: ps) xr cid) l) =
  Z.of_nat (snd (shape p)).
Proof. reflexivity. Qed.


(** C2: the code at a sample count that the width divides.  One matrix
    of shape [(1, 2)] and [window_width = 2]: line 29 builds a zero matrix of
    [2 - 0] columns, and the stored matrix has shape [(1, 4)], the two
    samples followed by two zeros; it is not the original matrix. *)
Theorem init_divisible_width_appends_window :
  let d := mk_ndarray (1%nat, 2%nat) [[1%Q; 2%Q]] in
  let r := __init__ [d] None 0 0 None 2 3 fresh in
  Z.of_nat (snd (shape d)) mod 2 = 0 /\
  fst r = inr tt /\
  datasets (self (snd r)) =
    Set_ [mk_ndarray (1%nat, 4%nat) [[1%Q; 2%Q; 0%Q; 0%Q]]] /\
  datasets (self (snd r)) <> Set_ [d].
Proof.
  vm_compute. repeat split. discriminate.
Qed.

(** C3: if two of the matrices differ in shape, the constructor raises the
    shape exception of line 17 and leaves the world as it found it: no
    attribute is set and nothing is drawn.  The object of the failed attempt
    has no attribute, so a render on it, or a key release, raises
    [AttributeError] and draws nothing either. *)
Theorem init_shape_mismatch
    ds names xv yv xr w h s0 (d1 d2 : ndarray) :
  In d1 ds -> In d2 ds ->
  shape_eqb (shape d1) (shape d2) = false ->
  __init__ ds names xv yv xr w h s0 = (inl ShapeMismatch, s0) /\
  (self s0 = new_self ->
   plot_window (snd (__init__ ds names xv yv xr w h s0)) =
     (inl AttributeError, s0) /\
   forall key,
     on_key_release key (snd (__init__ ds names xv yv xr w h s0)) =
       (inl AttributeError, s0)).
Proof.
  intros H1 H2 Hne.
  assert (Hd : distinct_shapes ds <> 1%nat).
  { apply (distinct_shapes_differing ds d1 d2 H1 H2).
    unfold shape_eqb in Hne.
    now destruct (shape_eq_dec (shape d1) (shape d2)). }
  assert (Hinit : __init__ ds names xv yv xr w h s0 = (inl ShapeMismatch, s0)).
  { rewrite init_eq. now destruct (Nat.eqb_spec (distinct_shapes ds) 1). }
  split; [exact Hinit |].
  rewrite Hinit. simpl. intros Hnew.
  assert (Hplot : plot_window s0 = (inl AttributeError, s0)).
  { unfold plot_window.
    apply bind_inl, getattr_unset. now rewrite Hnew. }
  split; [exact Hplot |].
  intros key. unfold on_key_release.
  repeat match goal with
         | |- context [if ?b then _ else _] => destruct b
         end.
  1-4: apply bind_inl, bind_inl, getattr_unset; now rewrite Hnew.
  unfold bind at 1. simpl. exact Hplot.
Qed.

Lemma init_shape_mismatch_witness :
  __init__ [ones 2 3; ones 2 4] None 0 0 None 2500 3 fresh =
    (inl ShapeMismatch, fresh) /\
  (self fresh = new_self ->
   plot_window (snd (__init__ [ones 2 3; ones 2 4] None 0 0 None 2500 3 fresh))
     = (inl AttributeError, fresh) /\
   forall key,
     on_key_release key
       (snd (__init__ [ones 2 3; ones 2 4] None 0 0 None 2500 3 fresh)) =
       (inl AttributeError, fresh)).
Proof.
  apply (init_shape_mismatch [ones 2 3; ones 2 4] None 0 0 None 2500 3 fresh
           (ones 2 3) (ones 2 4)).
  - simpl; auto.
  - simpl; auto.
  - reflexivity.
Defined.

(** C8: the render step changes no attribute of the object, whatever its
    outcome: the offsets, the padded datasets, the interpolated coordinates
    and the channel names after [plot_window] are those before it. *)
Theorem plot_window_frame (s : world) :
  self (snd (plot_window s)) = self s /\
  x (self (snd (plot_window s))) = x (self s) /\
  y (self (snd (plot_window s))) = y (self s) /\
  datasets (self (snd (plot_window s))) = datasets (self s) /\
  x_range (self (snd (plot_window s))) = x_range (self s) /\
  ch_names (self (snd (plot_window s))) = ch_names (self s).
Proof.
  destruct (frame_plot_window s) as [H _]. rewrite H. repeat split.
Qed.

(** C9: with no dataset at all the set of shapes is empty, its size is not
    one, and the constructor raises the same exception as for differing
    shapes, before anything else; it never succeeds. *)
Theorem init_empty_collection names xv yv xr w h s0 :
  __init__ [] names xv yv xr w h s0 = (inl ShapeMismatch, s0) /\
  fst (__init__ [] names xv yv xr w h s0) <> inr tt.
Proof.
  rewrite init_eq. simpl. split; [reflexivity | discriminate].
Qed.

Lemma inv_shape s C Tp w h :
  inv (self s) C Tp w h ->
  T_padded s = Z.of_nat Tp /\ channels s = Z.of_nat C.
Proof.
  intros Hinv. destruct (inv_datasets _ _ _ _ _ Hinv) as [d [ds [Hds Hall]]].
  unfold T_padded, channels. rewrite Hds.
  inversion Hall as [| ? ? [Hd _] _]; subst. now rewrite Hd.
Qed.

(** C4: after a successful construction and any key releases, the window
    start [(x * window_width) % T_padded] lies in
    [[0, T_padded - window_width]], for the offset the object holds and for
    every integer offset, negative ones included; so the slice
    [data[left : left + window_width]] of every row of every padded dataset
    is taken in bounds and has [window_width] entries. *)
Theorem window_start_in_bounds
    ds names xv yv xr w h s0 s (keys : list string) :
  forallb wf ds = true ->
  __init__ ds names xv yv xr w h s0 = (inr tt, s) ->
  let s' := key_releases keys s in
  window_width (self s') = Set_ w /\
  (forall xany : Z,
     exists left, py_mod (xany * w) (T_padded s') = inr left /\
                  0 <= left <= T_padded s' - w) /\
  (exists left,
     fst (window_left w s') = inr left /\
     0 <= left <= T_padded s' - w /\
     forall padded d row,
       datasets (self s') = Set_ padded -> In d padded -> In row (rows d) ->
       py_slice row left (left + w) =
         firstn (Z.to_nat w) (skipn (Z.to_nat left) row) /\
       length (py_slice row left (left + w)) = Z.to_nat w).
Proof.
  intros Hwf Hinit s'.
  destruct (init_ok_inv ds names xv yv xr w h s0 s Hwf Hinit)
    as [C [T [d [ds' [padded [xr' [_ [_ [Hw [_ [_ [_ [Hinv _]]]]]]]]]]]]].
  apply (key_releases_inv keys) in Hinv. fold s' in Hinv.
  destruct (inv_shape s' _ _ _ _ Hinv) as [HT _]. rewrite HT.
  pose proof (inv_Tpos _ _ _ _ _ Hinv) as HTpos.
  pose proof (inv_div _ _ _ _ _ Hinv) as Hdiv.
  split; [exact (inv_width _ _ _ _ _ Hinv) |].
  split.
  - intros xany. exists ((xany * w) mod Z.of_nat (T + pad_cols T w)).
    split; [apply py_mod_pos; lia |].
    apply window_start_bounds; auto; lia.
  - destruct (inv_x _ _ _ _ _ Hinv) as [xv' Hx].
    destruct (inv_datasets _ _ _ _ _ Hinv) as [p [ps [Hds Hall]]].
    assert (Hp : shape p = (C, (T + pad_cols T w)%nat))
      by (inversion Hall; tauto).
    exists ((xv' * w) mod Z.of_nat (T + pad_cols T w)).
    assert (Hb := window_start_bounds xv' w (Z.of_nat (T + pad_cols T w))
                    Hw ltac:(lia) Hdiv).
    split; [| split; [exact Hb |]].
    + replace (T + pad_cols T w)%nat with (snd (shape p)) by now rewrite Hp.
      apply (returns_window_left (self s') p ps xv' w Hds Hx);
        [rewrite Hp; exact HTpos | reflexivity].
    + intros padded' d' row Hds' Hd' Hrow.
      assert (padded' = p :: ps) as -> by congruence.
      rewrite Forall_forall in Hall. destruct (Hall d' Hd') as [Hsh' Hwf'].
      destruct (wf_inv d' Hwf') as [_ Hrows]. rewrite Forall_forall in Hrows.
      specialize (Hrows row Hrow). rewrite Hsh' in Hrows. simpl in Hrows.
      apply py_slice_in_range; lia.
Qed.

Lemma window_start_in_bounds_witness :
  let s' := key_releases ["left"; "left"; "left"; "up"]%string
              (snd (__init__ [ones 2 7] None 0 0 None 3 3 fresh)) in
  window_width (self s') = Set_ 3 /\
  (forall xany : Z,
     exists left, py_mod (xany * 3) (T_padded s') = inr left /\
                  0 <= left <= T_padded s' - 3) /\
  (exists left,
     fst (window_left 3 s') = inr left /\
     0 <= left <= T_padded s' - 3 /\
     forall padded d row,
       datasets (self s') = Set_ padded -> In d padded -> In row (rows d) ->
       py_slice row left (left + 3) =
         firstn (Z.to_nat 3) (skipn (Z.to_nat left) row) /\
       length (py_slice row left (left + 3)) = Z.to_nat 3).
Proof.
  apply (window_start_in_bounds [ones 2 7] None 0 0 None 3 3 fresh
           (snd (__init__ [ones 2 7] None 0 0 None 3 3 fresh))
           ["left"; "left"; "left"; "up"]%string).
  - reflexivity.
  - vm_compute; reflexivity.
Defined.

(** C5: after a successful construction and any key releases, for every
    integer offset [y], negative ones included, and every row [r] of the
    [window_height] rows, the channel index [(y + r) % C] lies in
    [[0, C - 1]].  With five channels, three rows and seven presses of
    [down] the offset is 7 and the render shows channels 2, 3 and 4. *)
Theorem channel_index_in_bounds
    ds names xv yv xr w h s0 s (keys : list string) :
  forallb wf ds = true ->
  __init__ ds names xv yv xr w h s0 = (inr tt, s) ->
  let s' := key_releases keys s in
  window_height (self s') = Set_ h /\
  (exists yv', y (self s') = Set_ yv') /\
  (forall yany r : Z,
     0 <= r <= h - 1 ->
     exists rc, py_mod (yany + r) (channels s') = inr rc /\
                0 <= rc <= channels s' - 1) /\
  map (fun r => py_mod (7 + r) 5) (range 3) = [inr 2; inr 3; inr 4] /\
  (let s7 := key_releases (repeat "down"%string 7)
               (snd (__init__ [ones 5 4]
                       (Some ["c0"; "c1"; "c2"; "c3"; "c4"]%string)
                       0 0 None 2 3 fresh)) in
   y (self s7) = Set_ 7 /\
   channels s7 = 5 /\
   titles (last_render (log s7)) = ["c2"; "c3"; "c4"]%string).
Proof.
  intros Hwf Hinit s'.
  destruct (init_ok_inv ds names xv yv xr w h s0 s Hwf Hinit)
    as [C [T [d [ds' [padded [xr' [_ [_ [Hw [_ [_ [_ [Hinv HC]]]]]]]]]]]]].
  apply (key_releases_inv keys) in Hinv. fold s' in Hinv.
  destruct (inv_shape s' _ _ _ _ Hinv) as [_ Hch]. rewrite Hch.
  split; [exact (inv_height _ _ _ _ _ Hinv) |].
  split; [exact (inv_y _ _ _ _ _ Hinv) |].
  split; [| split; [reflexivity | vm_compute; repeat split]].
  intros yany r Hr.
  assert (0 < C)%nat by (apply HC; lia).
  exists ((yany + r) mod Z.of_nat C). apply py_mod_pos. lia.
Qed.

Lemma channel_index_in_bounds_witness :
  let s' := key_releases ["up"; "up"; "up"; "down"]%string
              (snd (__init__ [ones 2 7] None 0 0 None 3 3 fresh)) in
  window_height (self s') = Set_ 3 /\
  (exists yv', y (self s') = Set_ yv') /\
  (forall yany r : Z,
     0 <= r <= 3 - 1 ->
     exists rc, py_mod (yany + r) (channels s') = inr rc /\
                0 <= rc <= channels s' - 1) /\
  map (fun r => py_mod (7 + r) 5) (range 3) = [inr 2; inr 3; inr 4] /\
  (let s7 := key_releases (repeat "down"%string 7)
               (snd (__init__ [ones 5 4]
                       (Some ["c0"; "c1"; "c2"; "c3"; "c4"]%string)
                       0 0 None 2 3 fresh)) in
   y (self s7) = Set_ 7 /\
   channels s7 = 5 /\
   titles (last_render (log s7)) = ["c2"; "c3"; "c4"]%string).
Proof.
  apply (channel_index_in_bounds [ones 2 7] None 0 0 None 3 3 fresh
           (snd (__init__ [ones 2 7] None 0 0 None 3 3 fresh))
           ["up"; "up"; "up"; "down"]%string).
  - reflexivity.
  - vm_compute; reflexivity.
Defined.

(** C6: the handler moves the offsets by the released key alone: [left]
    and [right] change [x] by one down and up, [up] and [down] change [y] by
    one down and up, and any other key leaves both as they were; this
    whatever the render that follows does.  With a width of 100 over 950
    samples, padded to 1000, eleven presses of [right] from [x = 0] give
    [x = 11] and the window start [(11 * 100) % 1000 = 100]. *)
Theorem on_key_release_offsets (key : string) (s : world) (xv yv : Z) :
  x (self s) = Set_ xv ->
  y (self s) = Set_ yv ->
  let s' := snd (on_key_release key s) in
  (key = "left"%string -> x (self s') = Set_ (xv - 1) /\ y (self s') = Set_ yv) /\
  (key = "right"%string -> x (self s') = Set_ (xv + 1) /\ y (self s') = Set_ yv) /\
  (key = "up"%string -> x (self s') = Set_ xv /\ y (self s') = Set_ (yv - 1)) /\
  (key = "down"%string -> x (self s') = Set_ xv /\ y (self s') = Set_ (yv + 1)) /\
  (key <> "left"%string -> key <> "right"%string ->
   key <> "up"%string -> key <> "down"%string ->
   x (self s') = Set_ xv /\ y (self s') = Set_ yv) /\
  (let s11 := key_releases (repeat "right"%string 11)
                (snd (__init__ [ones 1 950] None 0 0 None 100 3 fresh)) in
   T_padded s11 = 1000 /\
   x (self s11) = Set_ 11 /\
   fst (window_left 100 s11) = inr 100 /\
   py_mod (11 * 100) 1000 = inr 100).
Proof.
  intros Hx Hy s'. subst s'. rewrite on_key_release_self. unfold moved.
  rewrite Hx, Hy.
  do 4 (split; [intros ->; simpl; split; first [reflexivity | assumption] |]).
  split.
  - intros H1 H2 H3 H4. apply String.eqb_neq in H1, H2, H3, H4.
    rewrite H1, H2, H3, H4. now split.
  - vm_compute. repeat split.
Qed.

Lemma on_key_release_offsets_witness :
  let s0 := snd (__init__ [ones 2 7] None 4 5 None 3 3 fresh) in
  let s' := snd (on_key_release "left"%string s0) in
  ("left"%string = "left"%string -> x (self s') = Set_ (4 - 1) /\ y (self s') = Set_ 5) /\
  ("left"%string = "right"%string -> x (self s') = Set_ (4 + 1) /\ y (self s') = Set_ 5) /\
  ("left"%string = "up"%string -> x (self s') = Set_ 4 /\ y (self s') = Set_ (5 - 1)) /\
  ("left"%string = "down"%string -> x (self s') = Set_ 4 /\ y (self s') = Set_ (5 + 1)) /\
  ("left"%string <> "left"%string -> "left"%string <> "right"%string -> "left"%string <> "up"%string ->
   "left"%string <> "down"%string -> x (self s') = Set_ 4 /\ y (self s') = Set_ 5) /\
  (let s11 := key_releases (repeat "right"%string 11)
                (snd (__init__ [ones 1 950] None 0 0 None 100 3 fresh)) in
   T_padded s11 = 1000 /\
   x (self s11) = Set_ 11 /\
   fst (window_left 100 s11) = inr 100 /\
   py_mod (11 * 100) 1000 = inr 100).
Proof.
  apply (on_key_release_offsets "left"%string
           (snd (__init__ [ones 2 7] None 4 5 None 3 3 fresh)) 4 5).
  - reflexivity.
  - reflexivity.
Defined.

(** * The interpolated coordinates *)

Lemma increasing_from_nth l : forall a,
  increasing_from a l = true ->
  forall i j, (i < j < length (a :: l))%nat ->
    (nth i (a :: l) 0 < nth j (a :: l) 0)%Q.
Proof.
  induction l as [| b l IH]; intros a Hinc i j Hij.
  - simpl in Hij. lia.
  - simpl in Hinc. apply andb_prop in Hinc as [Hab Hrest].
    assert (Hlt : (a < b)%Q).
    { apply Qnot_le_lt. intros Hle. apply Qle_bool_iff in Hle.
      rewrite Hle in Hab. discriminate. }
    specialize (IH b Hrest).
    destruct j as [| j]; [lia |].
    destruct i as [| i].
    + change (nth 0 (a :: b :: l) 0%Q) with a.
      change (nth (S j) (a :: b :: l) 0%Q) with (nth j (b :: l) 0%Q).
      destruct j as [| j]; [exact Hlt |].
      apply Qlt_trans with b; [exact Hlt |].
      apply (IH 0%nat (S j)). simpl in *. lia.
    + change (nth (S i) (a :: b :: l) 0%Q) with (nth i (b :: l) 0%Q).
      change (nth (S j) (a :: b :: l) 0%Q) with (nth j (b :: l) 0%Q).
      apply IH. simpl in *. lia.
Qed.

Lemma strictly_increasing_nth l :
  strictly_increasing l = true ->
  forall i j, (i < j < length l)%nat -> (nth i l 0 < nth j l 0)%Q.
Proof.
  destruct l as [| a l]; intros H i j Hij; [simpl in Hij; lia |].
  now apply increasing_from_nth.
Qed.

Lemma last_app_repeat {A} (l : list A) d k :
  last (l ++ repeat (last l d) k) d = last l d.
Proof.
  destruct k as [| k]; [now rewrite app_nil_r |].
  change (repeat (last l d) (S k)) with (last l d :: repeat (last l d) k).
  rewrite repeat_cons, app_assoc. apply last_last.
Qed.

Lemma held_non_decreasing coords k :
  strictly_increasing coords = true ->
  forall i j,
    (i <= j < length (coords ++ repeat (last coords 0%Q) k))%nat ->
    (nth i (coords ++ repeat (last coords 0%Q) k) 0 <=
     nth j (coords ++ repeat (last coords 0%Q) k) 0)%Q.
Proof.
  intros Hinc i j Hij. rewrite length_app, repeat_length in Hij.
  assert (Hnth : forall n, (n < length coords + k)%nat ->
            nth n (coords ++ repeat (last coords 0%Q) k) 0%Q =
            nth (Nat.min n (length coords - 1)) coords 0%Q).
  { intros n Hn. destruct (Nat.lt_ge_cases n (length coords)) as [Hin | Hout].
    - rewrite app_nth1 by assumption. f_equal. lia.
    - rewrite app_nth2, nth_repeat_lt, last_as_nth by lia. f_equal. lia. }
  rewrite !Hnth by lia.
  destruct (Nat.eq_dec (Nat.min i (length coords - 1))
                       (Nat.min j (length coords - 1))) as [-> | Hne].
  - apply Qle_refl.
  - apply Qlt_le_weak, strictly_increasing_nth; [exact Hinc | lia].
Qed.

(** * What a render adds to the log *)

Lemma getattr_state {A} (a : DifferencePlot -> attr A) s r s1 :
  getattr a s = (r, s1) -> s1 = s.
Proof. unfold getattr. destruct (a (self s)); congruence. Qed.

Lemma plot_window_clears s :
  figure (self s) = Set_ tt ->
  exists l, log (snd (plot_window s)) = log s ++ FigureClear :: l.
Proof.
  intros Hfig. unfold plot_window.
  rewrite (bind_inr _ _ s tt s (getattr_set figure s tt Hfig)).
  unfold bind at 1. cbn [emit].
  match goal with
  | |- context [bind ?m ?k ?s1] =>
      assert (Hf : frame (bind m k)) by frame_tac;
      destruct (Hf s1) as [_ [l Hl]]; rewrite Hl
  end.
  exists l. cbn [log]. now rewrite <- app_assoc.
Qed.

Lemma plot_window_draws s s' :
  plot_window s = (inr tt, s') ->
  exists l, log s' = log s ++ FigureClear :: l ++ [PltDraw].
Proof.
  unfold plot_window. intros H.
  apply bind_inv in H as [[] [s1 [H1 H]]].
  apply getattr_state in H1 as ->.
  apply bind_inv in H as [[] [s2 [H2 H]]].
  injection H2 as <-.
  apply bind_inv in H as [h [s3 [H3 H]]].
  apply getattr_state in H3 as ->.
  apply bind_inv in H as [[] [s4 [H4 H]]].
  injection H as <-.
  assert (Hf : frame (for_ (range h) plot_channel)) by frame_tac.
  destruct (Hf (mk_world (self s) (log s ++ [FigureClear]))) as [_ [l Hl]].
  rewrite H4 in Hl. cbn [snd log] in Hl.
  exists l. cbn [log]. rewrite Hl, <- !app_assoc. reflexivity.
Qed.

(** C10: every key release ends in a render.  The handler is the render
    run on the object with the offsets moved by the key, so it clears the
    figure and draws again; a key that is none of the four arrows moves
    nothing and the handler is the render itself.  When the handler returns
    normally the log has grown by a whole frame, from [figure.clear()] to
    [plt.draw()]. *)
Theorem on_key_release_renders (key : string) (s : world) (xv yv : Z) :
  x (self s) = Set_ xv ->
  y (self s) = Set_ yv ->
  (exists o', on_key_release key s = plot_window (mk_world o' (log s))) /\
  (key <> "left"%string -> key <> "right"%string ->
   key <> "up"%string -> key <> "down"%string ->
   on_key_release key s = plot_window s) /\
  (figure (self s) = Set_ tt ->
   exists l, log (snd (on_key_release key s)) = log s ++ FigureClear :: l) /\
  (forall s', on_key_release key s = (inr tt, s') ->
     exists l, log s' = log s ++ FigureClear :: l ++ [PltDraw]).
Proof.
  intros Hx Hy.
  assert (Heq := on_key_release_eq key s xv yv Hx Hy).
  split; [eexists; exact Heq |].
  split.
  - intros H1 H2 H3 H4. rewrite Heq. unfold moved.
    apply String.eqb_neq in H1, H2, H3, H4.
    rewrite H1, H2, H3, H4. now rewrite world_eta.
  - rewrite Heq. split.
    + intros Hfig.
      apply (plot_window_clears (mk_world (moved key (self s)) (log s))).
      cbn [self]. unfold moved. rewrite Hx, Hy.
      repeat match goal with
             | |- context [if ?b then _ else _] => destruct b
             end; exact Hfig.
    + intros s' Hs'.
      apply (plot_window_draws (mk_world (moved key (self s)) (log s)) s' Hs').
Qed.

Lemma on_key_release_renders_witness :
  let s := snd (__init__ [ones 2 7] None 4 5 None 3 3 fresh) in
  (exists o', on_key_release "q"%string s = plot_window (mk_world o' (log s))) /\
  ("q"%string <> "left"%string -> "q"%string <> "right"%string ->
   "q"%string <> "up"%string -> "q"%string <> "down"%string ->
   on_key_release "q"%string s = plot_window s) /\
  (figure (self s) = Set_ tt ->
   exists l, log (snd (on_key_release "q"%string s)) =
             log s ++ FigureClear :: l) /\
  (forall s', on_key_release "q"%string s = (inr tt, s') ->
     exists l, log s' = log s ++ FigureClear :: l ++ [PltDraw]).
Proof.
  apply (on_key_release_renders "q"%string
           (snd (__init__ [ones 2 7] None 4 5 None 3 3 fresh)) 4 5).
  - reflexivity.
  - reflexivity.
Defined.

(** * Renders, event by event *)








Lemma runs_returns {A} o (m : M A) v l : runs o m v l -> returns o m v.
Proof. intros H s Hs. now rewrite (H s Hs). Qed.








(** * Viewers that a construction has set up *)









(** * The shape of a frame *)






Lemma traverse_length {A B} (f : A -> error + B) l bs :
  traverse f l = inr bs -> length bs = length l.
Proof.
  revert bs. induction l as [| v l IH]; intros bs; simpl.
  - intros H. now injection H as <-.
  - destruct (f v); [discriminate |].
    destruct (traverse f l) as [| bs']; [discriminate |].
    intros H. injection H as <-. simpl. now rewrite (IH bs' eq_refl).
Qed.


(** * Offsets after a sequence of keys *)

Lemma presses_cons_eq key keys : presses key (key :: keys) = presses key keys + 1.
Proof. unfold presses. rewrite count_occ_cons_eq by reflexivity. lia. Qed.

Lemma presses_cons_neq key key' keys :
  key' <> key -> presses key (key' :: keys) = presses key keys.
Proof. intros H. unfold presses. now rewrite count_occ_cons_neq. Qed.

Lemma set_x_set_x a b o : set_x a (set_x b o) = set_x a o.
Proof. reflexivity. Qed.

Lemma set_y_set_y a b o : set_y a (set_y b o) = set_y a o.
Proof. reflexivity. Qed.

Lemma set_x_set_y a b o : set_x a (set_y b o) = set_y b (set_x a o).
Proof. reflexivity. Qed.

Lemma key_releases_self keys : forall s xv yv,
  x (self s) = Set_ xv -> y (self s) = Set_ yv ->
  self (key_releases keys s) =
  set_y (yv + presses "down" keys - presses "up" keys)
    (set_x (xv + presses "right" keys - presses "left" keys) (self s)).
Proof.
  induction keys as [| key keys IH]; intros s xv yv Hx Hy.
  - unfold key_releases, presses. simpl. rewrite !Z.add_0_r, !Z.sub_0_r.
    destruct s as [o l]. simpl in *. destruct o; simpl in *. now subst.
  - change (key_releases (key :: keys) s)
      with (key_releases keys (snd (on_key_release key s))).
    assert (Hm := on_key_release_self key s). unfold moved in Hm.
    rewrite Hx, Hy in Hm.
    destruct (String.eqb_spec key "left") as [-> | Hl].
    { rewrite (IH _ (xv - 1) yv) by (rewrite Hm; cbn [x y set_x set_y]; first [reflexivity | assumption]).
      rewrite Hm, set_x_set_x, presses_cons_eq.
      rewrite !presses_cons_neq by discriminate. f_equal. f_equal. lia. }
    destruct (String.eqb_spec key "right") as [-> | Hr].
    { rewrite (IH _ (xv + 1) yv) by (rewrite Hm; cbn [x y set_x set_y]; first [reflexivity | assumption]).
      rewrite Hm, set_x_set_x, presses_cons_eq.
      rewrite !presses_cons_neq by discriminate. f_equal. f_equal. lia. }
    destruct (String.eqb_spec key "up") as [-> | Hu].
    { rewrite (IH _ xv (yv - 1)) by (rewrite Hm; cbn [x y set_x set_y]; first [reflexivity | assumption]).
      rewrite Hm, set_x_set_y, set_y_set_y, presses_cons_eq.
      rewrite !presses_cons_neq by discriminate. f_equal. lia. }
    destruct (String.eqb_spec key "down") as [-> | Hd].
    { rewrite (IH _ xv (yv + 1)) by (rewrite Hm; cbn [x y set_x set_y]; first [reflexivity | assumption]).
      rewrite Hm, set_x_set_y, set_y_set_y, presses_cons_eq.
      rewrite !presses_cons_neq by discriminate. f_equal. lia. }
    rewrite (IH _ xv yv) by (rewrite Hm; assumption).
    rewrite Hm. now rewrite !presses_cons_neq by assumption.
Qed.

(** * What the figure shows *)









(** * Further properties of the handler and the render *)

(** X1: a sequence of key releases changes the offsets by the net count
    of the arrows in it, whatever their order and whatever else was
    pressed: [x] grows by the presses of [right] less those of [left], [y]
    by the presses of [down] less those of [up]; no other attribute
    changes. *)
Theorem key_releases_offsets (keys : list string) (s : world) (xv yv : Z) :
  x (self s) = Set_ xv ->
  y (self s) = Set_ yv ->
  x (self (key_releases keys s)) =
    Set_ (xv + presses "right" keys - presses "left" keys) /\
  y (self (key_releases keys s)) =
    Set_ (yv + presses "down" keys - presses "up" keys) /\
  self (key_releases keys s) =
    set_y (yv + presses "down" keys - presses "up" keys)
      (set_x (xv + presses "right" keys - presses "left" keys) (self s)).
Proof.
  intros Hx Hy. rewrite (key_releases_self keys s xv yv Hx Hy).
  repeat split.
Qed.

Lemma key_releases_offsets_witness :
  let s := snd (__init__ [ones 2 7] None 4 5 None 3 3 fresh) in
  let keys := ["right"; "up"; "q"; "right"; "left"; "right"]%string in
  x (self (key_releases keys s)) =
    Set_ (4 + presses "right" keys - presses "left" keys) /\
  y (self (key_releases keys s)) =
    Set_ (5 + presses "down" keys - presses "up" keys) /\
  self (key_releases keys s) =
    set_y (5 + presses "down" keys - presses "up" keys)
      (set_x (4 + presses "right" keys - presses "left" keys) (self s)).
Proof.
  apply (key_releases_offsets
           ["right"; "up"; "q"; "right"; "left"; "right"]%string
           (snd (__init__ [ones 2 7] None 4 5 None 3 3 fresh)) 4 5).
  - vm_compute; reflexivity.
  - vm_compute; reflexivity.
Defined.








(** * Further properties of the constructor *)

Lemma same_shape_distinct C T ds :
  (0 < length ds)%nat -> same_shape C T ds = true ->
  distinct_shapes ds = 1%nat.
Proof.
  intros Hlen Hsame. apply (distinct_shapes_1_intro ds (C, T)).
  - destruct ds; [simpl in Hlen; lia | discriminate].
  - eapply Forall_impl; [| exact (same_shape_Forall C T ds Hsame)].
    now intros d [? _].
Qed.

(** With a positive width the padded datasets are stored, whatever the
    later statements of the constructor do. *)
Lemma init_padded ds names xv yv xr w h s0 C T :
  (0 < length ds)%nat -> same_shape C T ds = true -> 0 < w ->
  exists p ps,
    traverse (pad w) ds = inr (p :: ps) /\
    datasets (self (snd (__init__ ds names xv yv xr w h s0))) =
      Set_ (p :: ps) /\
    Forall (fun p' => shape p' = (C, (T + pad_cols T w)%nat) /\ wf p' = true)
           (p :: ps) /\
    Forall2 (fun d p' =>
               rows p' = map (fun r => r ++ repeat 0%Q (pad_cols T w)) (rows d))
            ds (p :: ps).
Proof.
  intros Hlen Hsame Hw.
  assert (Hall := same_shape_Forall C T ds Hsame).
  destruct (traverse_pad_ok w C T ds Hw Hall) as [padded [Ht [Hpad Hrel]]].
  destruct padded as [| p ps];
    [destruct ds; [simpl in Hlen; lia | inversion Hrel] |].
  exists p, ps. split; [exact Ht |]. split; [| now split].
  rewrite init_eq, (same_shape_distinct C T ds Hlen Hsame), Nat.eqb_refl, Ht.
  destruct (interpolated (p :: ps) xr) as [e | xr']; [reflexivity |].
  now rewrite (proj1 (init_tail_attrs _)).
Qed.

(** X6: a window width that is not positive never gets past the padding.
    For a non-empty collection of one shape, a width of zero raises
    [ZeroDivisionError] at line 28 and a negative width raises [ValueError]
    at line 29; by then the width, the height, the names and the offsets
    are set, but no dataset is stored, no figure is created and nothing is
    drawn. *)
Theorem init_nonpositive_width ds names xv yv xr w h s0 (C T : nat) :
  (0 < length ds)%nat ->
  same_shape C T ds = true ->
  w <= 0 ->
  __init__ ds names xv yv xr w h s0 =
  (inl (if w =? 0 then ZeroDivisionError else ValueError),
   mk_world (mk_self (Set_ w) (Set_ h) (Set_ names) (Set_ xv) (Set_ yv)
               (datasets (self s0)) (x_range (self s0)) (figure (self s0))
               (key_release_cid (self s0)))
            (log s0)).
Proof.
  intros Hlen Hsame Hw.
  rewrite init_eq, (same_shape_distinct C T ds Hlen Hsame), Nat.eqb_refl.
  destruct ds as [| d ds']; [simpl in Hlen; lia |].
  assert (Hpad : pad w d = inl (if w =? 0 then ZeroDivisionError
                                else ValueError)).
  { unfold pad, py_mod. destruct (Z.eqb_spec w 0) as [| Hne]; [reflexivity |].
    unfold np_zeros.
    assert (Hm := Z.mod_neg_bound (Z.of_nat (snd (shape d))) w ltac:(lia)).
    destruct (Z.ltb_spec (w - Z.of_nat (snd (shape d)) mod w) 0);
      [reflexivity | lia]. }
  cbn [traverse]. now rewrite Hpad.
Qed.

Lemma init_nonpositive_width_witness :
  __init__ [ones 2 7] None 0 0 None (-3) 3 fresh =
  (inl (if -3 =? 0 then ZeroDivisionError else ValueError),
   mk_world (mk_self (Set_ (-3)) (Set_ 3) (Set_ None) (Set_ 0) (Set_ 0)
               (datasets (self fresh)) (x_range (self fresh))
               (figure (self fresh)) (key_release_cid (self fresh)))
            (log fresh)).
Proof.
  apply (init_nonpositive_width [ones 2 7] None 0 0 None (-3) 3 fresh 2 7).
  - simpl; lia.
  - reflexivity.
  - lia.
Defined.

Lemma firstn_app_exact {A} (l l' : list A) : firstn (length l) (l ++ l') = l.
Proof.
  rewrite firstn_app, Nat.sub_diag, firstn_all. simpl. apply app_nil_r.
Qed.

(** * The one exception of the class *)

Lemma rb_ret {A} (a : A) : raises_builtin (ret a).
Proof. intros s e H. discriminate. Qed.

Lemma rb_emit e : raises_builtin (emit e).
Proof. intros s e' H. discriminate. Qed.

Lemma rb_getattr {A} (a : DifferencePlot -> attr A) : raises_builtin (getattr a).
Proof.
  intros s e. unfold getattr. destruct (a (self s)); simpl; intros H;
    [now injection H as <- | discriminate].
Qed.

Lemma rb_lift {A} (r : error + A) :
  (forall e, r = inl e -> builtin e) -> raises_builtin (lift r).
Proof. intros H s e He. apply H. exact He. Qed.

Lemma rb_raise {A} e : builtin e -> raises_builtin (@raise A e).
Proof. intros H s e' He. now injection He as <-. Qed.

Lemma rb_bind {A B} (m : M A) (k : A -> M B) :
  raises_builtin m -> (forall a, raises_builtin (k a)) ->
  raises_builtin (bind m k).
Proof.
  intros Hm Hk s e. unfold bind. specialize (Hm s).
  destruct (m s) as [[e' | a] s1]; simpl in *.
  - intros H. injection H as <-. now apply Hm.
  - apply Hk.
Qed.

Lemma rb_for {A} (l : list A) (body : A -> M unit) :
  (forall v, raises_builtin (body v)) -> raises_builtin (for_ l body).
Proof.
  intros Hb. induction l as [| v l IH]; simpl.
  - apply rb_ret.
  - apply rb_bind; [apply Hb | intros _; apply IH].
Qed.

Lemma py_index_error {A} (l : list A) i e : py_index l i = inl e -> builtin e.
Proof.
  unfold py_index. cbv zeta. destruct (_ || _); [now intros [= <-] |].
  destruct (nth_error _ _); [discriminate | now intros [= <-]].
Qed.

Lemma py_mod_error a b e : py_mod a b = inl e -> builtin e.
Proof. unfold py_mod. destruct (b =? 0); [now intros [= <-] | discriminate]. Qed.

Lemma np_interp_error xs xp fp e : np_interp xs xp fp = inl e -> builtin e.
Proof.
  unfold np_interp. destruct (negb _); [now intros [= <-] |].
  destruct xp; [now intros [= <-] | discriminate].
Qed.

Lemma pad_error w d e : pad w d = inl e -> builtin e.
Proof.
  unfold pad. destruct (py_mod _ w) as [e' | r] eqn:Hm.
  - intros [= <-]. exact (py_mod_error _ _ _ Hm).
  - unfold np_zeros. destruct (_ <? 0); [now intros [= <-] |].
    unfold np_concatenate1. destruct (Nat.eqb _ _);
      [discriminate | now intros [= <-]].
Qed.

Lemma traverse_error {A B} (f : A -> error + B) l e :
  (forall v e', f v = inl e' -> builtin e') ->
  traverse f l = inl e -> builtin e.
Proof.
  intros Hf. induction l as [| v l IH]; simpl; [discriminate |].
  destruct (f v) as [e' | b] eqn:Hv.
  - intros [= <-]. exact (Hf v e' Hv).
  - destruct (traverse f l) as [e' | bs]; [| discriminate].
    intros [= <-]. now apply IH.
Qed.

Lemma interpolated_error padded xr e :
  interpolated padded xr = inl e -> builtin e.
Proof.
  unfold interpolated. destruct xr as [coords |]; [| discriminate].
  destruct (py_index padded 0) as [e' | d] eqn:Hi.
  - intros [= <-]. exact (py_index_error _ _ _ Hi).
  - destruct (np_interp _ _ coords) as [e' | v] eqn:Hv; [| discriminate].
    intros [= <-]. exact (np_interp_error _ _ _ _ Hv).
Qed.

Ltac rb_tac :=
  repeat first
    [ progress cbv beta zeta
    | apply rb_bind; [| intros ? ]
    | apply rb_ret | apply rb_emit | apply rb_getattr
    | apply rb_raise; exact I
    | apply rb_lift; intros ? ?;
      first [ eapply py_index_error; eassumption
            | eapply py_mod_error; eassumption ]
    | apply rb_for; intros ?
    | match goal with
      | |- raises_builtin (if ?b then _ else _) => destruct b
      | |- raises_builtin (match ?v with Some _ => _ | None => _ end) =>
          destruct v
      | |- raises_builtin (let (_, _) := ?p in _) => destruct p
      end ].

Lemma rb_plot_window : raises_builtin plot_window.
Proof.
  unfold plot_window, plot_channel, window_left, datasets0_shape. rb_tac.
Qed.

Lemma rb_init_tail : raises_builtin init_tail.
Proof.
  unfold init_tail. apply rb_bind; [apply rb_plot_window | intros _].
  apply rb_bind; [apply rb_emit | intros _].
  apply rb_bind; [| intros _; apply rb_emit].
  intros s e H. discriminate.
Qed.

Lemma distinct_shapes_not_1 ds :
  distinct_shapes ds <> 1%nat ->
  ds = [] \/
  exists d1 d2, In d1 ds /\ In d2 ds /\ shape d1 <> shape d2.
Proof.
  intros Hne. destruct ds as [| d ds']; [now left | right].
  destruct (Forall_Exists_dec (fun d' => shape d' = shape d)
              (fun d' => shape_eq_dec (shape d') (shape d)) (d :: ds'))
    as [Hall | Hex].
  - exfalso. apply Hne.
    apply (distinct_shapes_1_intro (d :: ds') (shape d)); [discriminate | auto].
  - apply Exists_exists in Hex as [d' [Hin Hd']].
    exists d', d. repeat split; auto. now left.
Qed.

(** X9: the shape exception of line 17 is raised exactly when the
    collection is empty or holds two matrices of different shapes; every
    other failure of the constructor is an exception of Python, numpy or
    matplotlib. *)
Theorem init_shape_error_iff ds names xv yv xr w h s0 :
  fst (__init__ ds names xv yv xr w h s0) = inl ShapeMismatch <->
  (ds = [] \/ exists d1 d2, In d1 ds /\ In d2 ds /\ shape d1 <> shape d2).
Proof.
  rewrite init_eq.
  destruct (Nat.eqb_spec (distinct_shapes ds) 1) as [H1 | Hne].
  - split.
    + intros H. exfalso.
      assert (Hb : builtin ShapeMismatch); [| exact Hb].
      destruct (traverse (pad w) ds) as [e | padded] eqn:Ht.
      * simpl in H. injection H as ->.
        apply (traverse_error _ _ _ (pad_error w) Ht).
      * destruct (interpolated padded xr) as [e | xr'] eqn:Hi.
        -- simpl in H. injection H as ->.
           exact (interpolated_error _ _ _ Hi).
        -- exact (rb_init_tail _ _ H).
    + intros [-> | [d1 [d2 [Hd1 [Hd2 Hsh]]]]]; [discriminate |].
      exfalso. exact (distinct_shapes_differing ds d1 d2 Hd1 Hd2 Hsh H1).
  - split; [intros _; now apply distinct_shapes_not_1 | reflexivity].
Qed.

(** * Edges of the constructor *)

Lemma np_interp_on_grid coords n :
  coords <> [] ->
  np_interp (Q_of_range (range (Z.of_nat n)))
            (Q_of_range (range (Z.of_nat (length coords)))) coords =
  inr (map (fun i => nth (Nat.min i (length coords - 1)) coords 0%Q)
           (seq 0 n)).
Proof.
  intros Hne. unfold np_interp. rewrite !Q_of_range_nat.
  rewrite length_map, length_seq, Nat.eqb_refl. simpl negb. cbv iota.
  destruct coords as [| f0 fs]; [congruence |].
  cbn [length seq map]. f_equal.
  change (Qnat 0 :: map Qnat (seq 1 (length fs)))
    with (map Qnat (seq 0 (length (f0 :: fs)))).
  rewrite map_map. apply map_ext. intros i.
  rewrite interp_at_grid. f_equal. simpl. lia.
Qed.








(** * Channel names that run out *)







(** * The script *)

(** Started without a path, [main] asks its two questions and then
    fails on [raw_objects[0]] with [IndexError]; whatever was typed,
    nothing is read and nothing is drawn. *)
Theorem main_no_paths
    (mne_io_Raw : string -> bool -> error + raw)
    (mne_io_read_raw_egi : string -> error + raw)
    (compute_raw_psd : raw -> error + (ndarray * list Q))
    (int : string -> option Z)
    (typed1 typed2 : string) (keys1 keys2 : list string) (lg : list event) :
  main mne_io_Raw mne_io_read_raw_egi compute_raw_psd int
       [] typed1 typed2 keys1 keys2 lg = (inl IndexError, lg).
Proof. reflexivity. Qed.

(** X15: when the recordings were read and two of them differ in the
    shape of their data, [main] ends with the shape exception of the first
    viewer: nothing is drawn and the spectra are never asked for. *)
Theorem main_shape_mismatch
    (mne_io_Raw : string -> bool -> error + raw)
    (mne_io_read_raw_egi : string -> error + raw)
    (compute_raw_psd : raw -> error + (ndarray * list Q))
    (int : string -> option Z)
    (paths : list string) (typed1 typed2 : string)
    (keys1 keys2 : list string) (lg : list event)
    (raw_objects : list raw) (r1 r2 : raw) :
  traverse (read_raw mne_io_Raw mne_io_read_raw_egi) paths = inr raw_objects ->
  In r1 raw_objects -> In r2 raw_objects ->
  shape_eqb (shape (_data r1)) (shape (_data r2)) = false ->
  main mne_io_Raw mne_io_read_raw_egi compute_raw_psd int
       paths typed1 typed2 keys1 keys2 lg = (inl ShapeMismatch, lg).
Proof.
  intros Hread H1 H2 Hne. unfold main. rewrite Hread.
  destruct raw_objects as [| r0 rs]; [destruct H1 |].
  change (py_index (r0 :: rs) 0) with (@inr error raw r0). cbv iota.
  unfold new_DifferencePlot. rewrite init_eq.
  assert (Hd : distinct_shapes (map _data (r0 :: rs)) <> 1%nat).
  { apply (distinct_shapes_differing _ (_data r1) (_data r2)).
    - now apply in_map.
    - now apply in_map.
    - unfold shape_eqb in Hne.
      now destruct (shape_eq_dec (shape (_data r1)) (shape (_data r2))). }
  destruct (Nat.eqb_spec (distinct_shapes (map _data (r0 :: rs))) 1);
    [contradiction | reflexivity].
Qed.

Lemma main_shape_mismatch_witness :
  main sample_Raw sample_read_raw_egi sample_psd sample_int
       ["a.fif"; "b.egi"]%string "3" "" [] [] [] = (inl ShapeMismatch, []).
Proof.
  apply (main_shape_mismatch sample_Raw sample_read_raw_egi sample_psd
           sample_int ["a.fif"; "b.egi"]%string "3" "" [] [] []
           [mk_raw ["a"; "b"]%string (ones 2 7);
            mk_raw ["a"; "b"]%string (ones 2 9)]
           (mk_raw ["a"; "b"]%string (ones 2 7))
           (mk_raw ["a"; "b"]%string (ones 2 9))).
  - reflexivity.
  - simpl; auto.
  - simpl; auto.
  - reflexivity.
Defined.

Lemma endswith_iff s suffix :
  endswith s suffix = true <-> exists base, s = (base ++ suffix)%string.
Proof.
  induction s as [| c s IH]; cbn [endswith].
  - destruct (String.eqb_spec EmptyString suffix) as [<- | Hne].
    + split; [intros _; now exists EmptyString | reflexivity].
    + split; [intros H; discriminate H |]. intros [base Hb].
      destruct base; simpl in Hb; [congruence | discriminate].
  - destruct (String.eqb_spec (String c s) suffix) as [<- | Hne].
    + split; [intros _; now exists EmptyString | reflexivity].
    + rewrite IH. split.
      * intros [base ->]. now exists (String c base).
      * intros [base Hb]. destruct base as [| c' base]; simpl in Hb;
          [congruence |].
        injection Hb as _ ->. now exists base.
Qed.

(** X17: [read_raw] hands a file to the FIF reader, with preloading,
    exactly when its name is some text followed by [.fif], in these very
    letters; every other name goes to the EGI reader. *)
Theorem read_raw_dispatch
    (mne_io_Raw : string -> bool -> error + raw)
    (mne_io_read_raw_egi : string -> error + raw)
    (filename : string) :
  ((exists base, filename = (base ++ ".fif")%string) ->
   read_raw mne_io_Raw mne_io_read_raw_egi filename =
     mne_io_Raw filename true) /\
  (~ (exists base, filename = (base ++ ".fif")%string) ->
   read_raw mne_io_Raw mne_io_read_raw_egi filename =
     mne_io_read_raw_egi filename).
Proof.
  unfold read_raw. split; intros H.
  - apply endswith_iff in H. now rewrite H.
  - destruct (endswith filename ".fif") eqn:E; [| reflexivity].
    exfalso. apply H. now apply endswith_iff.
Qed.

Lemma read_raw_dispatch_witness :
  read_raw sample_Raw sample_read_raw_egi "rec.fif" = sample_Raw "rec.fif" true.
Proof.
  apply (proj1 (read_raw_dispatch sample_Raw sample_read_raw_egi "rec.fif")).
  exists "rec"%string. reflexivity.
Defined.


(** * What a successful construction has stored

    The statements of this part are about a construction that has returned:
    whatever the libraries accepted on the way, the object holds the padded
    matrices and the coordinates described here. *)

Lemma same_shape_wf C T ds : same_shape C T ds = true -> forallb wf ds = true.
Proof.
  intros Hsame. assert (Hall := same_shape_Forall C T ds Hsame).
  apply forallb_forall. intros d Hd. rewrite Forall_forall in Hall.
  now apply Hall.
Qed.

Lemma init_success ds names xv yv xr w h s0 s C T :
  same_shape C T ds = true ->
  __init__ ds names xv yv xr w h s0 = (inr tt, s) ->
  0 < w /\
  exists p ps xr',
    interpolated (p :: ps) xr = inr xr' /\
    datasets (self s) = Set_ (p :: ps) /\
    x_range (self s) = Set_ xr' /\
    length (p :: ps) = length ds /\
    Forall (fun p' => shape p' = (C, (T + pad_cols T w)%nat) /\ wf p' = true)
           (p :: ps) /\
    Forall2 (fun d p' =>
               rows p' = map (fun r => r ++ repeat 0%Q (pad_cols T w)) (rows d))
            ds (p :: ps).
Proof.
  intros Hsame Hinit.
  assert (Hall := same_shape_Forall C T ds Hsame).
  destruct (init_ok_inv ds names xv yv xr w h s0 s
              (same_shape_wf C T ds Hsame) Hinit)
    as [C' [T' [d [ds' [padded [xr' [-> [_ [Hw [Ht [Hi [Hself _]]]]]]]]]]]].
  split; [exact Hw |].
  destruct (traverse_pad_ok w C T (d :: ds') Hw Hall)
    as [padded' [Ht' [Hpad Hrel]]].
  assert (padded' = padded) as -> by congruence.
  destruct padded as [| p ps]; [inversion Hrel |].
  exists p, ps, xr'. rewrite Hself. cbn [datasets x_range established].
  split; [exact Hi |]. split; [reflexivity |]. split; [reflexivity |].
  split; [exact (traverse_length _ _ _ Ht) |]. now split.
Qed.

Lemma init_success_T_padded ds names xv yv xr w h s0 s C T :
  same_shape C T ds = true ->
  __init__ ds names xv yv xr w h s0 = (inr tt, s) ->
  0 < w /\ T_padded s = Z.of_nat T + (w - Z.of_nat T mod w).
Proof.
  intros Hsame Hinit.
  destruct (init_success _ _ _ _ _ _ _ _ _ _ _ Hsame Hinit)
    as [Hw [p [ps [xr' [_ [Hds [_ [_ [Hall _]]]]]]]]].
  split; [exact Hw |].
  assert (Hp : shape p = (C, (T + pad_cols T w)%nat))
    by (inversion Hall; tauto).
  unfold T_padded. rewrite Hds, Hp. cbn [snd]. unfold pad_cols.
  assert (Hb := Z.mod_pos_bound (Z.of_nat T) w Hw).
  rewrite Nat2Z.inj_add, Z2Nat.id; lia.
Qed.




(** C7, as amended: when the construction succeeds with an [x_range] of
    one coordinate per sample, at least one, each a float64 value and each
    smaller than the next, the stored coordinates are as many as the padded
    sample count, never decrease, start at the first given coordinate and
    end at the last one, which they hold over the padding: they are the
    given coordinates followed by copies of the last. *)
Theorem x_range_interpolated
    ds names xv yv (coords : list Q) w h s0 s (C T : nat) :
  same_shape C T ds = true ->
  length coords = T ->
  (0 < T)%nat ->
  strictly_increasing coords = true ->
  forallb is_float64 coords = true ->
  __init__ ds names xv yv (Some coords) w h s0 = (inr tt, s) ->
  exists v,
    x_range (self s) = Set_ (Some v) /\
    Z.of_nat (length v) = T_padded s /\
    (forall i j, (i <= j < length v)%nat -> (nth i v 0 <= nth j v 0)%Q) /\
    hd 0%Q v = hd 0%Q coords /\
    last v 0%Q = last coords 0%Q /\
    (forall i, (T <= i < length v)%nat -> nth i v 0%Q = last coords 0%Q) /\
    v = coords ++ repeat (last coords 0%Q) (length v - T).
Proof.
  intros Hsame Hcoords HT Hinc _ Hinit.
  destruct (init_success _ _ _ _ _ _ _ _ _ _ _ Hsame Hinit)
    as [Hw [p [ps [xr' [Hi [Hds [Hxr [_ [Hall _]]]]]]]]].
  assert (Hp : shape p = (C, (T + pad_cols T w)%nat))
    by (inversion Hall; tauto).
  assert (Hcne : coords <> [])
    by (destruct coords; [simpl in Hcoords; lia | discriminate]).
  assert (Hv : xr' = Some (coords ++ repeat (last coords 0%Q) (pad_cols T w))).
  { unfold interpolated in Hi. simpl in Hi. rewrite Hp in Hi. cbn [snd] in Hi.
    rewrite <- Hcoords in Hi at 1.
    rewrite (np_interp_grid coords _ Hcne) in Hi. congruence. }
  subst xr'.
  exists (coords ++ repeat (last coords 0%Q) (pad_cols T w)).
  unfold T_padded. rewrite Hds, Hp. cbn [snd].
  rewrite length_app, repeat_length, Hcoords.
  split; [exact Hxr |]. split; [reflexivity |].
  split; [intros i j Hij; apply held_non_decreasing;
          [exact Hinc | now rewrite length_app, repeat_length, Hcoords] |].
  split; [destruct coords; [congruence | reflexivity] |].
  split; [apply last_app_repeat |].
  split.
  - intros i Hi'. rewrite app_nth2 by lia. apply nth_repeat_lt. lia.
  - do 2 f_equal. lia.
Qed.

Lemma x_range_interpolated_witness :
  exists v,
    x_range (self (snd (__init__ [ones 2 4] None 0 0
                          (Some [10; 20; 35; 50]%Q) 3 3 fresh))) =
      Set_ (Some v) /\
    Z.of_nat (length v) =
      T_padded (snd (__init__ [ones 2 4] None 0 0
                       (Some [10; 20; 35; 50]%Q) 3 3 fresh)) /\
    (forall i j, (i <= j < length v)%nat -> (nth i v 0 <= nth j v 0)%Q) /\
    hd 0%Q v = hd 0%Q [10; 20; 35; 50]%Q /\
    last v 0%Q = last [10; 20; 35; 50]%Q 0%Q /\
    (forall i, (4 <= i < length v)%nat ->
               nth i v 0%Q = last [10; 20; 35; 50]%Q 0%Q) /\
    v = [10; 20; 35; 50]%Q ++
        repeat (last [10; 20; 35; 50]%Q 0%Q) (length v - 4).
Proof.
  apply (x_range_interpolated [ones 2 4] None 0 0 [10; 20; 35; 50]%Q 3 3
           fresh
           (snd (__init__ [ones 2 4] None 0 0 (Some [10; 20; 35; 50]%Q) 3 3
                   fresh))
           2 4).
  - reflexivity.
  - reflexivity.
  - lia.
  - reflexivity.
  - reflexivity.
  - vm_compute; reflexivity.
Defined.

(** C7 as stated fails when there is no sample.  For a matrix of shape
    [(1, 0)] the empty [x_range] has one coordinate per sample and is
    increasing, yet the interpolation refuses it: the constructor raises
    [ValueError] and stores no coordinates, so there is no sequence of the
    padded length. *)
Lemma x_range_interpolated_counterexample :
  same_shape 1 0 [ones 1 0] = true /\
  length (@nil Q) = 0%nat /\
  strictly_increasing [] = true /\
  fst (__init__ [ones 1 0] None 0 0 (Some []) 3 3 fresh) = inl ValueError /\
  T_padded (snd (__init__ [ones 1 0] None 0 0 (Some []) 3 3 fresh)) = 3 /\
  x_range (self (snd (__init__ [ones 1 0] None 0 0 (Some []) 3 3 fresh))) =
    Unset.
Proof. vm_compute. repeat split. Qed.

(** X7: when the construction succeeds, as many matrices are stored as
    were given, all of shape [(C, T_padded)], where [T_padded] is the
    smallest multiple of the width that is strictly greater than [T]: the
    padding is never empty and never more than one window. *)
Theorem init_padded_shape ds names xv yv xr w h s0 s (C T : nat) :
  same_shape C T ds = true ->
  __init__ ds names xv yv xr w h s0 = (inr tt, s) ->
  exists padded,
    datasets (self s) = Set_ padded /\
    length padded = length ds /\
    Forall (fun p => shape p = (C, Z.to_nat (T_padded s)) /\ wf p = true)
           padded /\
    (w | T_padded s) /\
    Z.of_nat T < T_padded s <= Z.of_nat T + w /\
    (forall m, (w | m) -> Z.of_nat T < m -> T_padded s <= m).
Proof.
  intros Hsame Hinit.
  destruct (init_success _ _ _ _ _ _ _ _ _ _ _ Hsame Hinit)
    as [Hw [p [ps [xr' [_ [Hds [_ [Hlen [Hall _]]]]]]]]].
  destruct (init_success_T_padded _ _ _ _ _ _ _ _ _ _ _ Hsame Hinit)
    as [_ HT].
  assert (Hb := Z.mod_pos_bound (Z.of_nat T) w Hw).
  assert (Hk : Z.to_nat (T_padded s) = (T + pad_cols T w)%nat).
  { rewrite HT. unfold pad_cols. lia. }
  exists (p :: ps). rewrite Hk.
  split; [exact Hds |]. split; [exact Hlen |]. split; [exact Hall |].
  rewrite HT.
  assert (Hd := Z.div_mod (Z.of_nat T) w ltac:(lia)).
  split; [exists (Z.of_nat T / w + 1); nia |].
  split; [lia |].
  intros m [q ->] Hm.
  assert (Z.of_nat T / w < q) by nia. nia.
Qed.

Lemma init_padded_shape_witness :
  exists padded,
    datasets (self (snd (__init__ [ones 2 6; ones 2 6] None 0 0 None 3 3
                           fresh))) = Set_ padded /\
    length padded = length [ones 2 6; ones 2 6] /\
    Forall (fun p =>
              shape p =
                (2%nat,
                 Z.to_nat (T_padded (snd (__init__ [ones 2 6; ones 2 6] None
                                            0 0 None 3 3 fresh)))) /\
              wf p = true) padded /\
    (3 | T_padded (snd (__init__ [ones 2 6; ones 2 6] None 0 0 None 3 3
                          fresh))) /\
    Z.of_nat 6 <
      T_padded (snd (__init__ [ones 2 6; ones 2 6] None 0 0 None 3 3 fresh))
      <= Z.of_nat 6 + 3 /\
    (forall m, (3 | m) -> Z.of_nat 6 < m ->
       T_padded (snd (__init__ [ones 2 6; ones 2 6] None 0 0 None 3 3 fresh))
         <= m).
Proof.
  apply (init_padded_shape [ones 2 6; ones 2 6] None 0 0 None 3 3 fresh
           (snd (__init__ [ones 2 6; ones 2 6] None 0 0 None 3 3 fresh)) 2 6).
  - reflexivity.
  - vm_compute; reflexivity.
Defined.

(** X8: the padding keeps the samples.  When the matrices hold float64
    values and the construction succeeds, every stored row is the given row
    followed by zeros only, so its first [T] entries are the given row
    again. *)
Theorem init_keeps_samples ds names xv yv xr w h s0 s (C T : nat) :
  same_shape C T ds = true ->
  float64_arrays ds = true ->
  __init__ ds names xv yv xr w h s0 = (inr tt, s) ->
  exists padded,
    datasets (self s) = Set_ padded /\
    Forall2 (fun d p =>
               rows p = map (fun r => r ++ repeat 0%Q
                                        (Z.to_nat (T_padded s) - T)) (rows d) /\
               map (firstn T) (rows p) = rows d)
            ds padded.
Proof.
  intros Hsame _ Hinit.
  destruct (init_success _ _ _ _ _ _ _ _ _ _ _ Hsame Hinit)
    as [Hw [p [ps [xr' [_ [Hds [_ [_ [_ Hrel]]]]]]]]].
  destruct (init_success_T_padded _ _ _ _ _ _ _ _ _ _ _ Hsame Hinit)
    as [_ HT].
  assert (Hb := Z.mod_pos_bound (Z.of_nat T) w Hw).
  assert (Hk : (Z.to_nat (T_padded s) - T)%nat = pad_cols T w).
  { rewrite HT. unfold pad_cols. lia. }
  exists (p :: ps). split; [exact Hds |]. rewrite Hk.
  assert (Hin := same_shape_Forall C T ds Hsame).
  revert Hin. generalize (p :: ps) Hrel. clear.
  intros padded Hrel. induction Hrel as [| d p ds ps Hrow _ IH]; intros Hin.
  - constructor.
  - inversion Hin as [| ? ? [Hsh Hwf] Hin']; subst.
    constructor; [| now apply IH].
    split; [exact Hrow |]. rewrite Hrow, map_map.
    destruct (wf_inv d Hwf) as [_ Hrows]. rewrite Hsh in Hrows.
    simpl in Hrows. clear -Hrows.
    induction Hrows as [| r rs Hr _ IH]; simpl; [reflexivity |].
    rewrite IH. f_equal. rewrite <- Hr. apply firstn_app_exact.
Qed.

Lemma init_keeps_samples_witness :
  exists padded,
    datasets (self (snd (__init__ [ones 2 6] None 0 0 None 3 3 fresh))) =
      Set_ padded /\
    Forall2 (fun d p =>
               rows p =
                 map (fun r =>
                        r ++ repeat 0%Q
                               (Z.to_nat
                                  (T_padded (snd (__init__ [ones 2 6] None 0 0
                                                    None 3 3 fresh))) - 6))
                     (rows d) /\
               map (firstn 6) (rows p) = rows d)
            [ones 2 6] padded.
Proof.
  apply (init_keeps_samples [ones 2 6] None 0 0 None 3 3 fresh
           (snd (__init__ [ones 2 6] None 0 0 None 3 3 fresh)) 2 6).
  - reflexivity.
  - reflexivity.
  - vm_compute; reflexivity.
Defined.

(** X13: when the construction succeeds with a non-empty [x_range] of
    float64 values, whatever its length, the stored coordinates are as many
    as the padded samples: the coordinate of sample [i] is [x_range[i]]
    while there is one and the last of [x_range] from there on, so a longer
    [x_range] is cut and a shorter one is held. *)
Theorem init_x_range_any_length
    ds names xv yv (coords : list Q) w h s0 s (C T : nat) :
  same_shape C T ds = true ->
  (0 < length coords)%nat ->
  forallb is_float64 coords = true ->
  __init__ ds names xv yv (Some coords) w h s0 = (inr tt, s) ->
  exists v,
    x_range (self s) = Set_ (Some v) /\
    Z.of_nat (length v) = T_padded s /\
    forall i, (i < length v)%nat ->
      nth i v 0%Q = nth (Nat.min i (length coords - 1)) coords 0%Q.
Proof.
  intros Hsame Hc _ Hinit.
  assert (Hne : coords <> [])
    by (destruct coords; [simpl in Hc; lia | discriminate]).
  destruct (init_success _ _ _ _ _ _ _ _ _ _ _ Hsame Hinit)
    as [Hw [p [ps [xr' [Hi [Hds [Hxr _]]]]]]].
  assert (Hv : xr' = Some (map (fun i => nth (Nat.min i (length coords - 1))
                                          coords 0%Q)
                               (seq 0 (snd (shape p))))).
  { unfold interpolated in Hi. simpl in Hi.
    rewrite (np_interp_on_grid coords _ Hne) in Hi. congruence. }
  subst xr'. eexists. split; [exact Hxr |].
  unfold T_padded. rewrite Hds, length_map, length_seq.
  split; [reflexivity |].
  intros i Hi'.
  rewrite (nth_indep _ _ ((fun i => nth (Nat.min i (length coords - 1))
                                       coords 0%Q) 0%nat))
    by now rewrite length_map, length_seq.
  rewrite (map_nth (fun i => nth (Nat.min i (length coords - 1)) coords 0%Q)).
  now rewrite seq_nth.
Qed.

Lemma init_x_range_any_length_witness :
  exists v,
    x_range (self (snd (__init__ [ones 1 2] None 0 0
                          (Some [1; 2; 3; 4; 5; 6; 7]%Q) 3 3 fresh))) =
      Set_ (Some v) /\
    Z.of_nat (length v) =
      T_padded (snd (__init__ [ones 1 2] None 0 0
                       (Some [1; 2; 3; 4; 5; 6; 7]%Q) 3 3 fresh)) /\
    forall i, (i < length v)%nat ->
      nth i v 0%Q =
      nth (Nat.min i (length [1; 2; 3; 4; 5; 6; 7]%Q - 1))
          [1; 2; 3; 4; 5; 6; 7]%Q 0%Q.
Proof.
  apply (init_x_range_any_length [ones 1 2] None 0 0
           [1; 2; 3; 4; 5; 6; 7]%Q 3 3 fresh
           (snd (__init__ [ones 1 2] None 0 0 (Some [1; 2; 3; 4; 5; 6; 7]%Q)
                   3 3 fresh))
           1 2).
  - reflexivity.
  - simpl; lia.
  - reflexivity.
  - vm_compute; reflexivity.
Defined.
